(** * Panorama-Stitcher: the blending engine of [blend.py]

    A shallow embedding of [src/blend.py] and the properties of its
    specification.

    Number model.  Python floats and NumPy [float32]/[float64] values are
    idealised as exact rationals ([Q]); Python integers are [Z].  The
    results of NumPy's float division, which yields [inf] and [nan]
    instead of raising, are kept apart in the type [npfloat].  Rounding
    error of the floating-point operations is outside this model.

    Array model.  A NumPy array of shape (H, W, C) is a list of H rows,
    each a list of W pixels, each a list of C channel values; [shape]
    reads the dimensions the way [img.shape] does.  Arrays with zero
    rows or columns therefore carry no column or channel count.

    Limits of the model.  Sums, products and quotients are exact, so a
    statement that needs associativity of float addition, or the exact
    integer a float truncates to, is outside what the model supports;
    [linalg_inv] raises exactly on a zero determinant, where NumPy's
    LU routine raises on a pivot that is exactly zero in floating
    point; an exception carries no buffer, so what a loop had written
    in place before it raised is not represented; [to_uint8] keeps the
    low eight bits of values outside 0..255, where the C cast is not
    defined; [warpPerspective_identity] returns the empty image on an
    empty source, which OpenCV refuses. *)

From Stdlib Require Import ZArith QArith Qminmax Qround Qabs Lqa Lia String Bool.
From stdpp Require Import base list.

(** ** Exceptions and the error monad *)

(** The exception classes the module can raise: [Exception] itself
    (line 245), and the built-in and NumPy classes raised by the
    operations it calls. *)
Inductive exn : Type :=
| Exception (msg : string)
| ValueError
| IndexError
| OverflowError
| UnboundLocalError
| ZeroDivisionError
| LinAlgError.

(** The name of the class of an exception object, [type(e).__name__]. *)
Definition exn_class (e : exn) : string :=
  match e with
  | Exception _ => "Exception"
  | ValueError => "ValueError"
  | IndexError => "IndexError"
  | OverflowError => "OverflowError"
  | UnboundLocalError => "UnboundLocalError"
  | ZeroDivisionError => "ZeroDivisionError"
  | LinAlgError => "LinAlgError"
  end.

Inductive result (A : Type) : Type :=
| Ok (a : A)
| Raise (e : exn).
Arguments Ok {A} a.
Arguments Raise {A} e.

Definition bind {A B} (m : result A) (k : A -> result B) : result B :=
  match m with
  | Ok a => k a
  | Raise e => Raise e
  end.

Notation "'let*' x ':=' m 'in' k" := (bind m (fun x => k))
  (at level 10, x binder, m at level 100, k at level 200).
Notation "'let*' ' p ':=' m 'in' k" := (bind m (fun x => let 'p := x in k))
  (at level 10, p pattern, m at level 100, k at level 200).

(** A [for] loop over a list whose body may raise. *)
Fixpoint for_each {A S} (body : A -> S -> result S) (l : list A) (s : S)
  : result S :=
  match l with
  | [] => Ok s
  | a :: l' => let* s' := body a s in for_each body l' s'
  end.

(** [range(n)] *)
Definition range (n : nat) : list nat := seq 0 n.

(** ** Numbers *)

Local Open Scope Q_scope.

(** [sys.maxsize] on a 64-bit build. *)
Definition sys_maxsize : Z := (2 ^ 63 - 1)%Z.

(** Python's [int(x)] on a finite float: truncation toward zero. *)
Definition Qtrunc (q : Q) : Z := Z.quot (Qnum q) (Zpos (Qden q)).

Definition Qmin3 (a b c : Q) : Q := Qmin (Qmin a b) c.

(** The result of a NumPy float division. *)
Inductive npfloat : Type :=
| Fin (q : Q)
| PInf
| NInf
| NaN.

(** [a / b] on NumPy floats: division by zero gives an infinity or nan. *)
Definition np_div (a b : Q) : npfloat :=
  if Qeq_bool b 0 then
    if Qeq_bool a 0 then NaN
    else if Qle_bool 0 a then PInf else NInf
  else Fin (a / b).

(** [v < n] and [v >= n]; every comparison with nan is false. *)
Definition np_lt (v : npfloat) (n : Q) : bool :=
  match v with
  | Fin q => negb (Qle_bool n q)
  | NInf => true
  | PInf | NaN => false
  end.

Definition np_ge (v : npfloat) (n : Q) : bool :=
  match v with
  | Fin q => Qle_bool n q
  | PInf => true
  | NInf | NaN => false
  end.

(** [int(v)]: raises on nan and on the infinities. *)
Definition py_int (v : npfloat) : result Z :=
  match v with
  | Fin q => Ok (Qtrunc q)
  | NaN => Raise ValueError
  | PInf | NInf => Raise OverflowError
  end.

(** The value of a float known to be finite. *)
Definition np_val (v : npfloat) : Q :=
  match v with
  | Fin q => q
  | _ => 0
  end.

(** NumPy's [astype(np.uint8)] of a float: truncate, then keep the low
    eight bits. *)
Definition to_uint8 (q : Q) : Z := (Qtrunc q mod 256)%Z.

(** ** 3x3 matrices *)

Definition vec3 : Type := Q * Q * Q.
Definition mat3 : Type := vec3 * vec3 * vec3.

Definition identity3 : mat3 := ((1, 0, 0), (0, 1, 0), (0, 0, 1)).

Definition dot3 (r v : vec3) : Q :=
  let '(a, b, c) := r in
  let '(x, y, z) := v in
  a * x + b * y + c * z.

(** [M.dot(v)] *)
Definition mat_vec (M : mat3) (v : vec3) : vec3 :=
  let '(r0, r1, r2) := M in (dot3 r0 v, dot3 r1 v, dot3 r2 v).

Definition col (M : mat3) (j : nat) : vec3 :=
  let '((a, b, c), (d, e, f), (g, h, i)) := M in
  match j with
  | O => (a, d, g)
  | S O => (b, e, h)
  | _ => (c, f, i)
  end.

(** [A.dot(B)] *)
Definition mat_mul (A B : mat3) : mat3 :=
  let '(r0, r1, r2) := A in
  ((dot3 r0 (col B 0), dot3 r0 (col B 1), dot3 r0 (col B 2)),
   (dot3 r1 (col B 0), dot3 r1 (col B 1), dot3 r1 (col B 2)),
   (dot3 r2 (col B 0), dot3 r2 (col B 1), dot3 r2 (col B 2))).

Definition det3 (M : mat3) : Q :=
  let '((a, b, c), (d, e, f), (g, h, i)) := M in
  a * (e * i - f * h) - b * (d * i - f * g) + c * (d * h - e * g).

(** [np.linalg.inv(M)]: raises [LinAlgError] on a singular matrix. *)
Definition linalg_inv (M : mat3) : result mat3 :=
  let '((a, b, c), (d, e, f), (g, h, i)) := M in
  let dt := det3 M in
  if Qeq_bool dt 0 then Raise LinAlgError
  else Ok (((e * i - f * h) / dt, (c * h - b * i) / dt, (b * f - c * e) / dt),
           ((f * g - d * i) / dt, (a * i - c * g) / dt, (c * d - a * f) / dt),
           ((d * h - e * g) / dt, (b * g - a * h) / dt, (a * e - b * d) / dt)).

(** ** Arrays *)

Abbreviation pixel := (list Q) (only parsing).
Abbreviation image := (list (list (list Q))) (only parsing).

(** [img.shape] *)
Definition shape (img : image) : nat * nat * nat :=
  (length img, length (hd [] img), length (hd [] (hd [] img))).

(** An array is rectangular: this is what being a NumPy array of shape
    (H, W, C) means for the nested lists. *)
Definition has_shape (H W C : nat) (img : image) : Prop :=
  length img = H /\
  Forall (fun row => length row = W /\ Forall (fun p => length p = C) row) img.

(** [a[y][x]], when both indices are in range. *)
Definition cell_at {A} (a : list (list A)) (y x : nat) : option A :=
  match a !! y with
  | Some row => row !! x
  | None => None
  end.

(** NumPy index normalisation on an axis of length [n]: negative indices
    count from the end, anything outside [-n, n) raises [IndexError]. *)
Definition np_index (n : nat) (i : Z) : result nat :=
  if (0 <=? i)%Z then
    if (i <? Z.of_nat n)%Z then Ok (Z.to_nat i) else Raise IndexError
  else
    if (- Z.of_nat n <=? i)%Z then Ok (Z.to_nat (Z.of_nat n + i))
    else Raise IndexError.

(** [img[y, x]] *)
Definition img_get (img : image) (y x : Z) : result pixel :=
  let '(H, W, _) := shape img in
  let* j := np_index H y in
  let* i := np_index W x in
  match img !! j with
  | Some row =>
      match row !! i with
      | Some p => Ok p
      | None => Raise IndexError
      end
  | None => Raise IndexError
  end.

(** [np.zeros((h, w, c))] *)
Definition np_zeros (h w c : Z) : result image :=
  if ((h <? 0) || (w <? 0) || (c <? 0))%Z then Raise ValueError
  else Ok (replicate (Z.to_nat h)
             (replicate (Z.to_nat w) (replicate (Z.to_nat c) 0))).

(** Scalar times pixel, pixel plus pixel (equal channel counts). *)
Definition pix_scale (p : pixel) (s : Q) : pixel := map (fun v => v * s) p.
Definition pix_add (p q : pixel) : pixel := zip_with Qplus p q.

(** ** The source *)

Record ImageInfo : Type := mkImageInfo {
  name : string;
  img : image;
  position : mat3
}.

(** [cv2.perspectiveTransform] on one point: the homogeneous image of
    (x, y, 1) divided by its third coordinate, and (0, 0) when that
    coordinate vanishes (a division by zero in [Q] gives 0 as well). *)
Definition perspectiveTransform (M : mat3) (pt : Q * Q) : Q * Q :=
  let '(x, y, w) := mat_vec M (fst pt, snd pt, 1) in
  (x / w, y / w).

(** [np.min] and [np.max] of a column of values. *)
Definition np_min (l : list Q) : Q :=
  match l with
  | [] => 0
  | a :: l' => fold_left Qmin l' a
  end.

Definition np_max (l : list Q) : Q :=
  match l with
  | [] => 0
  | a :: l' => fold_left Qmax l' a
  end.

(** Lines 30-34: the four corners of the image, mapped through [M]. *)
Definition transformed_corners (img : image) (M : mat3) : list (Q * Q) :=
  let '(H, W, _) := shape img in
  let H := inject_Z (Z.of_nat H) in
  let W := inject_Z (Z.of_nat W) in
  let corners := [(0, 0); (0, H - 1); (W - 1, H - 1); (W - 1, 0)] in
  map (perspectiveTransform M) corners.

(** Lines 15-41. *)
Definition imageBoundingBox (img : image) (M : mat3) : Z * Z * Z * Z :=
  let tc := transformed_corners img M in
  let minX := np_min (map fst tc) in
  let minY := np_min (map snd tc) in
  let maxX := np_max (map fst tc) in
  let maxY := np_max (map snd tc) in
  (Qtrunc minX, Qtrunc minY, Qtrunc maxX, Qtrunc maxY).

(** Lines 43-57.  [x] and [y] are finite once [int] has accepted them. *)
Definition bilinear_interpolation (img : image) (x y : npfloat)
  : result pixel :=
  let* x_0 := py_int x in
  let* y_0 := py_int y in
  let x_1 := (x_0 + 1)%Z in
  let y_1 := (y_0 + 1)%Z in
  let dx := np_val x - inject_Z x_0 in
  let dy := np_val y - inject_Z y_0 in
  let* p00 := img_get img y_0 x_0 in
  let top_left := pix_scale (pix_scale p00 (1 - dx)) (1 - dy) in
  let* p01 := img_get img y_0 x_1 in
  let top_right := pix_scale (pix_scale p01 dx) (1 - dy) in
  let* p10 := img_get img y_1 x_0 in
  let bottom_left := pix_scale (pix_scale p10 (1 - dx)) dy in
  let* p11 := img_get img y_1 x_1 in
  let bottom_right := pix_scale (pix_scale p11 dx) dy in
  Ok (pix_add (pix_add (pix_add top_left top_right) bottom_left) bottom_right).

(** [cell[:3] += v]: [v] must have as many channels as the slice, or one
    channel, which is broadcast. *)
Definition iadd_slice3 (cell v : pixel) : result pixel :=
  let tgt := take 3 cell in
  if (length v =? length tgt)%nat then Ok (pix_add tgt v ++ drop 3 cell)
  else if (length v =? 1)%nat then
    Ok (map (fun a => a + hd 0 v) tgt ++ drop 3 cell)
  else Raise ValueError.

(** [cell[3] += w] *)
Definition iadd_at3 (cell : pixel) (w : Q) : result pixel :=
  match cell !! 3%nat with
  | Some a => Ok (<[3%nat := a + w]> cell)
  | None => Raise IndexError
  end.

(** [min(x, blendWidth, W - x) / blendWidth], line 87. *)
Definition blend_weight (x W : nat) (blendWidth : Q) : result Q :=
  let m := Qmin3 (inject_Z (Z.of_nat x)) blendWidth
             (inject_Z (Z.of_nat W - Z.of_nat x)) in
  if Qeq_bool blendWidth 0 then Raise ZeroDivisionError
  else Ok (m / blendWidth).

(** The test of line 82: the source point is outside the part of the
    image that has a neighbour to the right and below. *)
Definition skip_test (img : image) (input_x input_y : npfloat) : bool :=
  let '(iH, iW, _) := shape img in
  np_lt input_x 0 || np_ge input_x (inject_Z (Z.of_nat iW - 1))
  || np_lt input_y 0 || np_ge input_y (inject_Z (Z.of_nat iH - 1)).

(** What one iteration of the inner loop (lines 79-90) does to the cell
    [acc[y, x]]; [img] is the image already divided by 255. *)
Definition blend_cell (img : image) (inverse_M : mat3) (blendWidth : Q)
    (W : nat) (y x : nat) (cell : pixel) : result pixel :=
  let '(ix, iy, iz) :=
    mat_vec inverse_M (inject_Z (Z.of_nat x), inject_Z (Z.of_nat y), 1) in
  let input_x := np_div ix iz in
  let input_y := np_div iy iz in
  if skip_test img input_x input_y then Ok cell
  else
    let* pixel_value := bilinear_interpolation img input_x input_y in
    let* weight := blend_weight x W blendWidth in
    let* cell1 := iadd_slice3 cell (pix_scale pixel_value weight) in
    iadd_at3 cell1 weight.

(** The in-place update of [acc[y, x]] by one iteration. *)
Definition blend_at (img : image) (inverse_M : mat3) (blendWidth : Q)
    (W : nat) (y x : nat) (acc : image) : result image :=
  match acc !! y with
  | Some row =>
      match row !! x with
      | Some cell =>
          let* cell' := blend_cell img inverse_M blendWidth W y x cell in
          Ok (<[y := <[x := cell']> row]> acc)
      | None => Raise IndexError
      end
  | None => Raise IndexError
  end.

(** [img.astype(np.float64) / 255.0] *)
Definition to_unit_range (img : image) : image :=
  map (map (map (fun v => v / 255))) img.

(** Lines 59-92. *)
Definition accumulateBlend (img acc : image) (M : mat3) (blendWidth : Q)
  : result image :=
  let img := to_unit_range img in
  let '(H, W, _) := shape acc in
  let* inverse_M := linalg_inv M in
  for_each
    (fun y acc =>
       for_each (fun x acc => blend_at img inverse_M blendWidth W y x acc)
         (range W) acc)
    (range H) acc.

(** [p[:3] /= np.maximum(p[3:], 1e-8)] on one pixel; the divisor has one
    channel (broadcast) or as many as the slice. *)
Definition idiv_slice3 (p : pixel) : result pixel :=
  let num := take 3 p in
  let den := map (fun w => Qmax w (1 # 100000000)) (drop 3 p) in
  if (length den =? length num)%nat then
    Ok (zip_with Qdiv num den ++ drop 3 p)
  else if (length den =? 1)%nat then
    Ok (map (fun a => a / hd 0 den) num ++ drop 3 p)
  else Raise ValueError.

(** [p[3] = 1.0] *)
Definition set_at3 (p : pixel) : result pixel :=
  match p !! 3%nat with
  | Some _ => Ok (<[3%nat := 1]> p)
  | None => Raise IndexError
  end.

(** [mapM] over a list. *)
Fixpoint map_result {A B} (f : A -> result B) (l : list A) : result (list B) :=
  match l with
  | [] => Ok []
  | a :: l' =>
      let* b := f a in
      let* bs := map_result f l' in
      Ok (b :: bs)
  end.

(** Lines 106-110 on one pixel of the buffer. *)
Definition normalize_pixel (p : pixel) : result (list Z) :=
  let* p1 := idiv_slice3 p in
  let* p2 := set_at3 p1 in
  Ok (map (fun v => to_uint8 (v * 255)) p2).

(** Lines 95-110.  The output is an 8-bit image. *)
Definition normalizeBlend (acc : image) : result (list (list (list Z))) :=
  map_result (map_result normalize_pixel) acc.

(** Lines 104-108 on one pixel: the pixel as it stands before the
    8-bit cast of line 110. *)
Definition normalize_pixel_floats (p : pixel) : result pixel :=
  let* p1 := idiv_slice3 p in
  set_at3 p1.

(** Lines 104-108: the normalised image, still in floats. *)
Definition normalize_floats (acc : image) : result image :=
  map_result (map_result normalize_pixel_floats) acc.

(** Line 110: [(img * 255).astype(np.uint8)]. *)
Definition cast_uint8 (flt : image) : list (list (list Z)) :=
  map (map (map (fun v => to_uint8 (v * 255)))) flt.

(** The running state of the loop of [getAccSize]. *)
Record acc_state : Type := mkAccState {
  st_minX : Z; st_minY : Z; st_maxX : Z; st_maxY : Z;
  st_channels : Z; st_width : Z
}.

(** Lines 134-139. *)
Definition acc_state_init : acc_state :=
  mkAccState sys_maxsize sys_maxsize 0 0 (-1) (-1).

(** Lines 142-156, one iteration. *)
Definition acc_state_step (st : acc_state) (i : ImageInfo) : acc_state :=
  let M := position i in
  let img := img i in
  let '(_, w, c) := shape img in
  let channels := if (st_channels st =? -1)%Z then Z.of_nat c else st_channels st in
  let width := if (st_channels st =? -1)%Z then Z.of_nat w else st_width st in
  let '(newMinX, newMinY, newMaxX, newMaxY) := imageBoundingBox img M in
  mkAccState (Z.min (st_minX st) newMinX) (Z.min (st_minY st) newMinY)
             (Z.max (st_maxX st) newMaxX) (Z.max (st_maxY st) newMaxY)
             channels width.

(** The canvas geometry [getAccSize] returns. *)
Record acc_size : Type := mkAccSize {
  accWidth : Z; accHeight : Z; channels : Z; width : Z; translation : mat3
}.

(** Lines 113-164. *)
Definition getAccSize (ipv : list ImageInfo) : acc_size :=
  let st := fold_left acc_state_step ipv acc_state_init in
  let accWidth :=
    (Qceiling (inject_Z (st_maxX st)) - Qfloor (inject_Z (st_minX st)))%Z in
  let accHeight :=
    (Qceiling (inject_Z (st_maxY st)) - Qfloor (inject_Z (st_minY st)))%Z in
  let translation : mat3 :=
    ((1, 0, inject_Z (- st_minX st)),
     (0, 1, inject_Z (- st_minY st)),
     (0, 0, 1)) in
  mkAccSize accWidth accHeight (st_channels st) (st_width st) translation.

(** Lines 167-178. *)
Definition pasteImages (ipv : list ImageInfo) (translation : mat3)
    (blendWidth : Q) (accWidth accHeight channels : Z) : result image :=
  let* acc := np_zeros accHeight accWidth (channels + 1) in
  for_each
    (fun i acc =>
       let M := position i in
       let img := img i in
       let M_trans := mat_mul translation M in
       accumulateBlend img acc M_trans blendWidth)
    ipv acc.

(** The four variables [getDriftParams] assigns, unbound at first. *)
Record drift_state : Type := mkDrift {
  d_init : option (npfloat * npfloat);
  d_final : option (npfloat * npfloat)
}.

(** [p[:2] / p[2]] *)
Definition dehomogenize (p : vec3) : npfloat * npfloat :=
  let '(p0, p1, p2) := p in (np_div p0 p2, np_div p1 p2).

(** Lines 199-204: the point [(0.5 * width, 0, 1)] of image [i], mapped
    to the canvas. *)
Definition drift_point (translation : mat3) (width : Z) (i : ImageInfo)
  : vec3 :=
  let M := position i in
  let M_trans := mat_mul translation M in
  mat_vec M_trans ((1 # 2) * inject_Z width, 0, 1).

(** Lines 195-211, one iteration of the loop over [enumerate(ipv)]. *)
Definition drift_step (n : nat) (translation : mat3) (width : Z)
    (ci : nat * ImageInfo) (st : drift_state) : drift_state :=
  let '(count, i) := ci in
  if negb (count =? 0)%nat && negb (count =? n - 1)%nat then st
  else
    let p := drift_point translation width i in
    let pt := dehomogenize p in
    let st1 := if (count =? 0)%nat then mkDrift (Some pt) (d_final st) else st in
    if (count =? n - 1)%nat then mkDrift (d_init st1) (Some pt) else st1.

(** [enumerate(l)] *)
Definition enumerate {A} (l : list A) : list (nat * A) :=
  zip (seq 0 (length l)) l.

(** Lines 181-213: [(x_init, y_init), (x_final, y_final)]. *)
Definition getDriftParams (ipv : list ImageInfo) (translation : mat3)
    (width : Z) : result ((npfloat * npfloat) * (npfloat * npfloat)) :=
  let st :=
    fold_left (fun st ci => drift_step (length ipv) translation width ci st)
      (enumerate ipv) (mkDrift None None) in
  match d_init st, d_final st with
  | Some pi, Some pf => Ok (pi, pf)
  | _, _ => Raise UnboundLocalError
  end.

Abbreviation image8 := (list (list (list Z))) (only parsing).

(** [cv2.warpPerspective(src, A, (w, h), flags=cv2.INTER_LINEAR)] for the
    only [A] the call on line 252 is reached with, the identity: the
    window [0, w) x [0, h) of [src], with the constant border 0 outside
    of [src]. *)
Definition warpPerspective_identity (src : image8) (w h : Z) : image8 :=
  let c := length (hd [] (hd [] src)) in
  map (fun y =>
         map (fun x =>
                match src !! y with
                | Some row => default (replicate c 0%Z) (row !! x)
                | None => replicate c 0%Z
                end)
           (range (Z.to_nat w)))
    (range (Z.to_nat h)).

(** Lines 215-256.  Returns the mosaic and what is left in [A_out]. *)
Definition blendImages (ipv : list ImageInfo) (blendWidth : Q)
    (is360 : bool) (A_out : option mat3) : result (image8 * option mat3) :=
  let sz := getAccSize ipv in
  let* acc :=
    pasteImages ipv (translation sz) blendWidth
      (accWidth sz) (accHeight sz) (channels sz) in
  let* compImage := normalizeBlend acc in
  let outputWidth := if is360 then (accWidth sz - width sz)%Z else accWidth sz in
  let* drift := getDriftParams ipv (translation sz) (width sz) in
  let A := identity3 in
  let* _ :=
    if is360 then Raise (Exception "TODO 12 in blend.py not implemented")
    else Ok tt in
  let A_out := match A_out with Some _ => Some A | None => None end in
  let croppedImage :=
    warpPerspective_identity compImage outputWidth (accHeight sz) in
  Ok (croppedImage, A_out).

(** The canvas position of the point (x, y) of image [i]: the point
    mapped through [translation . position] and dehomogenized. *)
Definition canvas_point (translation : mat3) (i : ImageInfo) (x y : Q)
  : npfloat * npfloat :=
  dehomogenize (mat_vec (mat_mul translation (position i)) (x, y, 1)).

(** Equality of float values (nan equals nothing). *)
Definition npfloat_eq (a b : npfloat) : Prop :=
  match a, b with
  | Fin p, Fin q => p == q
  | PInf, PInf | NInf, NInf => True
  | _, _ => False
  end.

(** The components of the bounding box of one placed image. *)
Definition box_minX (i : ImageInfo) : Z :=
  let '(a, _, _, _) := imageBoundingBox (img i) (position i) in a.
Definition box_minY (i : ImageInfo) : Z :=
  let '(_, b, _, _) := imageBoundingBox (img i) (position i) in b.
Definition box_maxX (i : ImageInfo) : Z :=
  let '(_, _, c, _) := imageBoundingBox (img i) (position i) in c.
Definition box_maxY (i : ImageInfo) : Z :=
  let '(_, _, _, d) := imageBoundingBox (img i) (position i) in d.

(** Least and greatest element of a list of integers. *)
Definition Zmin_list (l : list Z) : Z :=
  match l with
  | [] => 0%Z
  | a :: l' => fold_left Z.min l' a
  end.

Definition Zmax_list (l : list Z) : Z :=
  match l with
  | [] => 0%Z
  | a :: l' => fold_left Z.max l' a
  end.

(** The box of the specification's words: the exact, unrounded
    transformed corners of all the images, and the canvas size
    ceil(max) - floor(min) taken over them. *)
Definition all_corners (ipv : list ImageInfo) : list (Q * Q) :=
  concat (map (fun i => transformed_corners (img i) (position i)) ipv).

Definition enclosing_width (ipv : list ImageInfo) : Z :=
  (Qceiling (np_max (map fst (all_corners ipv)))
   - Qfloor (np_min (map fst (all_corners ipv))))%Z.

Definition enclosing_height (ipv : list ImageInfo) : Z :=
  (Qceiling (np_max (map snd (all_corners ipv)))
   - Qfloor (np_min (map snd (all_corners ipv))))%Z.

(** Every channel value of the image is non-negative. *)
Definition img_nonneg (img : image) : Prop :=
  Forall (Forall (Forall (fun v => 0 <= v))) img.

(** Cell by cell, channel by channel, [acc] is at most [acc']; the two
    buffers have the same shape. *)
Definition buffer_le (acc acc' : image) : Prop :=
  Forall2 (Forall2 (Forall2 Qle)) acc acc'.

(** An in-place loop [for i in xs: l[i] = f(i, l[i])] over a list. *)
Definition upd_at {A} (f : nat -> A -> result A) (i : nat) (l : list A)
  : result (list A) :=
  match l !! i with
  | Some a => let* a' := f i a in Ok (<[i := a']> l)
  | None => Raise IndexError
  end.

Definition upd_loop {A} (f : nat -> A -> result A) (xs : list nat)
    (l : list A) : result (list A) :=
  for_each (upd_at f) xs l.

(** The mosaic equals the image: same height and width, and at every
    pixel the colour channels of the image, as 8-bit values. *)
Definition mosaic_equals_input (pic : image) (out : image8) : Prop :=
  length out = length pic /\
  (forall y row, out !! y = Some row -> length row = length (hd [] pic)) /\
  (forall y x p,
      cell_at pic y x = Some p ->
      exists q, cell_at out y x = Some q /\
                take (length p) q = map to_uint8 p).

(** ** Inputs used in the examples *)

(** A pure translation by (tx, ty). *)
Definition translate (tx ty : Q) : mat3 := ((1, 0, tx), (0, 1, ty), (0, 0, 1)).

(** The image of shape (h, w, c) with every channel value [v]. *)
Definition constant_image (h w c : nat) (v : Q) : image :=
  replicate h (replicate w (replicate c v)).

(** The scenario of the specification: two 100x100 three-channel images,
    the second one 50 pixels to the right of the first. *)
Definition scenario (imgA imgB : image) : list ImageInfo :=
  [mkImageInfo "A" imgA identity3; mkImageInfo "B" imgB (translate 50 0)].

(** A white 2x2 image at the identity. *)
Definition white_2x2 : ImageInfo :=
  mkImageInfo "white"
    [[[255; 255; 255]; [255; 255; 255]]; [[255; 255; 255]; [255; 255; 255]]]
    identity3.

(** A 2x2 image placed half a pixel to the right. *)
Definition half_pixel_right : ImageInfo :=
  mkImageInfo "shifted" (constant_image 2 2 3 0) (translate (1 # 2) 0).

(** A 3x4 image with distinct 8-bit values. *)
Definition ramp_3x4 : list (list (list Q)) :=
  [[[1; 2; 3]; [4; 5; 6]; [7; 8; 9]; [10; 11; 12]];
   [[21; 22; 23]; [24; 25; 26]; [27; 28; 29]; [30; 31; 32]];
   [[41; 42; 43]; [44; 45; 46]; [47; 48; 49]; [250; 251; 252]]].

(** Two buffers of the same shape whose cells hold equal numbers. *)
Definition buffer_eq (acc acc' : image) : Prop :=
  Forall2 (Forall2 (Forall2 Qeq)) acc acc'.

(** A cell of a four-channel buffer is sound when nothing in it is
    negative and its colour sums vanish whenever its weight does. *)
Definition cell_sound (cell : list Q) : Prop :=
  exists c0 c1 c2 a,
    cell = [c0; c1; c2; a] /\
    0 <= c0 /\ 0 <= c1 /\ 0 <= c2 /\ 0 <= a /\
    (a == 0 -> c0 == 0 /\ c1 == 0 /\ c2 == 0).

Definition buffer_sound (acc : image) : Prop :=
  Forall (Forall cell_sound) acc.

(** The image holds 8-bit values: every channel value is an integer
    between 0 and 255. *)
Definition is_byteb (v : Q) : bool :=
  Qeq_bool (inject_Z (Qtrunc v)) v
  && (0 <=? Qtrunc v)%Z && (Qtrunc v <=? 255)%Z.

Definition img_bytes (img : image) : Prop :=
  forallb (forallb (forallb is_byteb)) img = true.

(** The 8-bit value [o] renders the channel value [v] up to the rounding
    of the float pipeline: it is [v] or one below, and not negative. *)
Definition rounds_to (v : Q) (o : Z) : Prop :=
  (Qtrunc v - 1 <= o <= Qtrunc v)%Z /\ (0 <= o)%Z.

(** * Properties *)

(** ** Truncation and the rational order *)

Lemma Qtrunc_nonneg (q : Q) : 0 <= q -> Qtrunc q = Qfloor q.
Proof.
  destruct q as [n d]. unfold Qtrunc, Qfloor, Qle. simpl. intros Hn.
  apply Z.quot_div_nonneg; lia.
Qed.

Lemma Qtrunc_nonpos (q : Q) : q <= 0 -> Qtrunc q = (- Qfloor (- q))%Z.
Proof.
  destruct q as [n d]. unfold Qtrunc, Qfloor, Qle, Qopp. simpl. intros Hn.
  rewrite <- (Z.opp_involutive n) at 1.
  rewrite Z.quot_opp_l by lia. f_equal.
  apply Z.quot_div_nonneg; lia.
Qed.

Lemma Qtrunc_comp (p q : Q) : p == q -> Qtrunc p = Qtrunc q.
Proof.
  intros Heq. destruct (Qlt_le_dec p 0) as [Hneg | Hpos].
  - rewrite (Qtrunc_nonpos p), (Qtrunc_nonpos q) by lra.
    f_equal. apply Qfloor_comp. lra.
  - rewrite (Qtrunc_nonneg p), (Qtrunc_nonneg q) by lra.
    now apply Qfloor_comp.
Qed.

#[export] Instance Qtrunc_proper : Proper (Qeq ==> eq) Qtrunc.
Proof. intros p q. apply Qtrunc_comp. Qed.

Lemma Qtrunc_Z (z : Z) : Qtrunc (inject_Z z) = z.
Proof. unfold Qtrunc, inject_Z. simpl. apply Z.quot_1_r. Qed.

Lemma Qeq_bool_false (a b : Q) : Qeq_bool a b = false <-> ~ a == b.
Proof.
  split.
  - intros H Heq. apply Qeq_bool_iff in Heq. congruence.
  - intros H. destruct (Qeq_bool a b) eqn:E; [|done].
    apply Qeq_bool_iff in E. contradiction.
Qed.

Lemma Qle_bool_false (a b : Q) : Qle_bool a b = false <-> b < a.
Proof.
  split.
  - intros H. apply Qnot_le_lt. intros Hle. apply Qle_bool_iff in Hle. congruence.
  - intros H. destruct (Qle_bool a b) eqn:E; [|done].
    apply Qle_bool_iff in E. lra.
Qed.

Lemma Qmin3_spec (a b c : Q) :
  Qmin3 a b c <= a /\ Qmin3 a b c <= b /\ Qmin3 a b c <= c /\
  (Qmin3 a b c == a \/ Qmin3 a b c == b \/ Qmin3 a b c == c).
Proof.
  unfold Qmin3.
  destruct (Q.min_spec a b) as [[? E1] | [? E1]];
    destruct (Q.min_spec (Qmin a b) c) as [[? E2] | [? E2]];
    rewrite E2 in *; try rewrite E1 in *; repeat split; try lra; auto.
  all: rewrite E1; auto.
Qed.

Lemma Qmin3_comm13 (a b c : Q) : Qmin3 a b c == Qmin3 c b a.
Proof.
  destruct (Qmin3_spec a b c) as (?&?&?&?), (Qmin3_spec c b a) as (?&?&?&?).
  apply Qle_antisym.
  - destruct H6 as [E | [E | E]]; rewrite E; assumption.
  - destruct H2 as [E | [E | E]]; rewrite E; assumption.
Qed.

#[export] Instance Qmin3_proper : Proper (Qeq ==> Qeq ==> Qeq ==> Qeq) Qmin3.
Proof. intros a a' Ha b b' Hb c c' Hc. unfold Qmin3. now rewrite Ha, Hb, Hc. Qed.

(** ** The blend weight (line 87) *)

Lemma blend_weight_ok (x W : nat) (b : Q) :
  ~ b == 0 ->
  blend_weight x W b =
    Ok (Qmin3 (inject_Z (Z.of_nat x)) b (inject_Z (Z.of_nat W - Z.of_nat x)) / b).
Proof.
  intros Hb. unfold blend_weight.
  apply Qeq_bool_false in Hb. now rewrite Hb.
Qed.

(** C2, as the specification states it, fails: on a canvas 10 columns
    wide with [blendWidth = 5] the weight of column 0 is 0 while the
    weight of the mirrored column 9 = W - 1 - 0 is min(9, 5, 1) / 5 = 1/5. *)
Lemma blend_weight_not_symmetric_about_last_column :
  exists w0 w9,
    blend_weight 0 10 5 = Ok w0 /\
    blend_weight (10 - 1 - 0) 10 5 = Ok w9 /\
    ~ w0 == w9.
Proof.
  eexists; eexists. split; [reflexivity|]. split; [reflexivity|].
  vm_compute. discriminate.
Qed.

(** C2 (amended): the hat is symmetric about W / 2, not about (W - 1) / 2:
    for every canvas width W, every [blendWidth] b > 0 and every x with
    0 <= x <= W, the weight of x equals the weight of W - x. *)
Theorem blend_weight_symmetric (W x : nat) (b : Q) :
  0 < b -> (x <= W)%nat ->
  exists w w',
    blend_weight x W b = Ok w /\
    blend_weight (W - x) W b = Ok w' /\
    w == w'.
Proof.
  intros Hb Hx.
  assert (Hb0 : ~ b == 0) by lra.
  eexists; eexists. split; [now apply blend_weight_ok|].
  split; [now apply blend_weight_ok|].
  apply Qmult_comp; [|reflexivity].
  rewrite Qmin3_comm13.
  replace (Z.of_nat W - Z.of_nat (W - x))%Z with (Z.of_nat x) by lia.
  replace (Z.of_nat (W - x)) with (Z.of_nat W - Z.of_nat x)%Z by lia.
  reflexivity.
Qed.

Lemma blend_weight_symmetric_witness :
  exists w w',
    blend_weight 3 10 5 = Ok w /\ blend_weight (10 - 3) 10 5 = Ok w' /\ w == w'.
Proof.
  apply (blend_weight_symmetric 10 3 5); [reflexivity | lia].
Defined.

(** ** Loops and maps in the error monad *)

Lemma map_result_lookup {A B} (f : A -> result B) l l' i a :
  map_result f l = Ok l' -> l !! i = Some a ->
  exists b, f a = Ok b /\ l' !! i = Some b.
Proof.
  revert l' i. induction l as [|a0 l IH]; intros l' i Hm Hi; [done|].
  simpl in Hm. destruct (f a0) as [b0|] eqn:Hf; [|done]. simpl in Hm.
  destruct (map_result f l) as [bs|] eqn:Hr; [|done]. simpl in Hm.
  injection Hm as <-. destruct i as [|i]; simpl in *.
  - injection Hi as ->. eauto.
  - eapply IH; eauto.
Qed.

Lemma map_result_length {A B} (f : A -> result B) l l' :
  map_result f l = Ok l' -> length l' = length l.
Proof.
  revert l'. induction l as [|a0 l IH]; intros l' Hm; simpl in Hm.
  - now injection Hm as <-.
  - destruct (f a0) as [b0|]; [|done]. simpl in Hm.
    destruct (map_result f l) as [bs|]; [|done]. simpl in Hm.
    injection Hm as <-. simpl. f_equal. now apply IH.
Qed.

Lemma map_result_total {A B} (f : A -> result B) l :
  Forall (fun a => exists b, f a = Ok b) l -> exists l', map_result f l = Ok l'.
Proof.
  induction 1 as [|a l [b Hb] _ [bs Hbs]]; simpl; [eauto|].
  rewrite Hb. simpl. rewrite Hbs. simpl. eauto.
Qed.

(** ** Normalisation (lines 95-110) *)

Lemma normalize_pixel_4 (r g b w : Q) :
  let m := Qmax w (1 # 100000000) in
  normalize_pixel [r; g; b; w] =
    Ok [to_uint8 (r / m * 255); to_uint8 (g / m * 255);
        to_uint8 (b / m * 255); 255%Z].
Proof. reflexivity. Qed.

Lemma to_uint8_zero (q : Q) : q == 0 -> to_uint8 q = 0%Z.
Proof. intros Hq. unfold to_uint8. now rewrite (Qtrunc_comp q 0 Hq). Qed.

Lemma map_result_cast {A B C} (f : A -> result B) (h : A -> result C)
    (g : B -> C) :
  (forall a, h a = let* b := f a in Ok (g b)) ->
  forall l, map_result h l = let* l' := map_result f l in Ok (map g l').
Proof.
  intros Hh. induction l as [|a l IH]; [done|].
  simpl. rewrite Hh, IH. destruct (f a) as [b|]; [simpl|done].
  now destruct (map_result f l).
Qed.

Lemma normalize_pixel_split (p : list Q) :
  normalize_pixel p =
    let* p2 := normalize_pixel_floats p in
    Ok (map (fun v => to_uint8 (v * 255)) p2).
Proof.
  unfold normalize_pixel, normalize_pixel_floats.
  now destruct (idiv_slice3 p).
Qed.

(** [normalizeBlend] is lines 104-108 followed by the cast of line 110. *)
Lemma normalizeBlend_split (acc : list (list (list Q))) :
  normalizeBlend acc =
    let* flt := normalize_floats acc in Ok (cast_uint8 flt).
Proof.
  unfold normalizeBlend, normalize_floats, cast_uint8.
  apply map_result_cast. intros row.
  apply map_result_cast. apply normalize_pixel_split.
Qed.

Lemma normalize_pixel_floats_4 (r g b w : Q) :
  let d := Qmax w (1 # 100000000) in
  normalize_pixel_floats [r; g; b; w] = Ok [r / d; g / d; b / d; 1].
Proof. reflexivity. Qed.

(** C9: on every four-channel buffer [normalizeBlend] returns, and the
    divisor it applies to a pixel of weight w is max(w, 1e-8), never
    below 1e-8: before the 8-bit cast the pixel (r, g, b, w) has become
    (r / d, g / d, b / d, 1) with d = max(w, 1e-8).  For a pixel no image
    touched (weight 0) the divisor is 1e-8 itself, not 0, and with its
    colour sums 0 the pixel comes out black and fully opaque,
    (0, 0, 0, 255). *)
Theorem normalizeBlend_untouched_pixel (H W : nat) (acc : image) :
  has_shape H W 4 acc ->
  exists flt,
    normalize_floats acc = Ok flt /\
    normalizeBlend acc = Ok (cast_uint8 flt) /\
    forall y x r g b w,
      cell_at acc y x = Some [r; g; b; w] ->
      let d := Qmax w (1 # 100000000) in
      (1 # 100000000) <= d /\
      cell_at flt y x = Some [r / d; g / d; b / d; 1] /\
      (w == 0 -> d == 1 # 100000000) /\
      (w == 0 -> r == 0 -> g == 0 -> b == 0 ->
       cell_at (cast_uint8 flt) y x = Some [0; 0; 0; 255]%Z).
Proof.
  intros [_ Hrows].
  assert (Htot : exists flt, normalize_floats acc = Ok flt).
  { apply map_result_total. eapply Forall_impl; [exact Hrows|].
    intros row [_ Hpix]. apply map_result_total.
    eapply Forall_impl; [exact Hpix|].
    intros p Hp. do 5 (destruct p as [|? p]; try discriminate).
    eexists. apply normalize_pixel_floats_4. }
  destruct Htot as [flt Hflt]. exists flt. split; [exact Hflt|].
  split; [rewrite normalizeBlend_split, Hflt; reflexivity|].
  intros y x r g b w Hcell d.
  assert (Hd : (1 # 100000000) <= d) by apply Q.le_max_r.
  assert (Hf : cell_at flt y x = Some [r / d; g / d; b / d; 1]).
  { unfold cell_at in *.
    destruct (acc !! y) as [row|] eqn:Hy; [|done].
    destruct (map_result_lookup _ _ _ _ _ Hflt Hy) as (frow & Hfrow & ->).
    destruct (map_result_lookup _ _ _ _ _ Hfrow Hcell) as (fp & Hfp & ->).
    rewrite normalize_pixel_floats_4 in Hfp. now injection Hfp as <-. }
  split; [exact Hd|]. split; [exact Hf|]. split.
  - intros Hw. unfold d. rewrite Hw. reflexivity.
  - intros Hw Hr Hg Hb. unfold cell_at, cast_uint8 in *.
    rewrite list_lookup_fmap.
    destruct (flt !! y) as [frow|]; [|done]. cbn [fmap option_fmap option_map].
    rewrite list_lookup_fmap, Hf. cbn [fmap option_fmap option_map map].
    assert (Hm : ~ d == 0) by lra.
    rewrite (to_uint8_zero (r / d * 255)), (to_uint8_zero (g / d * 255)),
      (to_uint8_zero (b / d * 255)); [reflexivity| | |].
    + rewrite Hb. field. exact Hm.
    + rewrite Hg. field. exact Hm.
    + rewrite Hr. field. exact Hm.
Qed.

Lemma normalizeBlend_untouched_pixel_witness :
  exists flt,
    normalize_floats [[[0; 0; 0; 0]; [1 # 2; 1 # 4; 0; 1 # 2]]] = Ok flt /\
    normalizeBlend [[[0; 0; 0; 0]; [1 # 2; 1 # 4; 0; 1 # 2]]]
      = Ok (cast_uint8 flt) /\
    forall y x r g b w,
      cell_at [[[0; 0; 0; 0]; [1 # 2; 1 # 4; 0; 1 # 2]]] y x
        = Some [r; g; b; w] ->
      let d := Qmax w (1 # 100000000) in
      (1 # 100000000) <= d /\
      cell_at flt y x = Some [r / d; g / d; b / d; 1] /\
      (w == 0 -> d == 1 # 100000000) /\
      (w == 0 -> r == 0 -> g == 0 -> b == 0 ->
       cell_at (cast_uint8 flt) y x = Some [0; 0; 0; 255]%Z).
Proof.
  apply (normalizeBlend_untouched_pixel 1 2).
  split; [reflexivity|]. repeat constructor.
Defined.

(** ** Shapes and indexing *)

Lemma has_shape_shape (H W C : nat) (img : image) :
  has_shape H W C img -> (0 < H)%nat -> (0 < W)%nat -> shape img = (H, W, C).
Proof.
  intros [Hlen Hrows] HH HW. unfold shape.
  destruct img as [|row img]; simpl in *; [lia|].
  apply Forall_cons in Hrows as [[Hrow Hpix] _].
  destruct row as [|p row]; simpl in *; [lia|].
  apply Forall_cons in Hpix as [Hp _]. now subst.
Qed.

Lemma has_shape_cell (H W C : nat) (img : image) (y x : nat) :
  has_shape H W C img -> (y < H)%nat -> (x < W)%nat ->
  exists p, cell_at img y x = Some p /\ length p = C.
Proof.
  intros [Hlen Hrows] Hy Hx. unfold cell_at.
  destruct (lookup_lt_is_Some_2 img y) as [row Hrow]; [lia|].
  rewrite Hrow.
  destruct (proj1 (Forall_lookup _ _) Hrows y row Hrow) as [Hlr Hpix].
  destruct (lookup_lt_is_Some_2 row x) as [p Hp]; [lia|].
  exists p. split; [done|].
  exact (proj1 (Forall_lookup _ _) Hpix x p Hp).
Qed.

Lemma np_index_in_range (n : nat) (i : Z) :
  (0 <= i < Z.of_nat n)%Z -> np_index n i = Ok (Z.to_nat i).
Proof.
  intros Hi. unfold np_index.
  destruct (Z.leb_spec 0 i); [|lia].
  destruct (Z.ltb_spec i (Z.of_nat n)); [done|lia].
Qed.

Lemma img_get_in_bounds (H W C : nat) (img : image) (y x : Z) :
  has_shape H W C img ->
  (0 <= y < Z.of_nat H)%Z -> (0 <= x < Z.of_nat W)%Z ->
  exists p,
    img_get img y x = Ok p /\
    cell_at img (Z.to_nat y) (Z.to_nat x) = Some p /\
    length p = C.
Proof.
  intros Hs Hy Hx.
  destruct (has_shape_cell H W C img (Z.to_nat y) (Z.to_nat x) Hs)
    as (p & Hp & Hlen); [lia | lia |].
  exists p. split; [|done].
  unfold img_get. rewrite (has_shape_shape H W C) by (done || lia).
  rewrite !np_index_in_range by lia. simpl.
  unfold cell_at in Hp.
  destruct (img !! Z.to_nat y) as [row|]; [|done]. now rewrite Hp.
Qed.

(** When the bounding box only reads the shape. *)
Lemma imageBoundingBox_shape (img img' : image) (M : mat3) :
  shape img = shape img' -> imageBoundingBox img M = imageBoundingBox img' M.
Proof.
  intros Hs. unfold imageBoundingBox, transformed_corners. now rewrite Hs.
Qed.

(** ** The sampling guard (line 82) *)

Lemma skip_test_false (H W C : nat) (img : image) (x y : Q) :
  has_shape H W C img ->
  skip_test img (Fin x) (Fin y) = false ->
  (0 < H)%nat /\ (0 < W)%nat /\
  0 <= x /\ x < inject_Z (Z.of_nat W - 1) /\
  0 <= y /\ y < inject_Z (Z.of_nat H - 1).
Proof.
  intros Hs Hskip.
  assert (Hsh : forall h w c, shape img = (h, w, c) ->
            0 <= x /\ x < inject_Z (Z.of_nat w - 1) /\
            0 <= y /\ y < inject_Z (Z.of_nat h - 1)).
  { intros h w c E. unfold skip_test in Hskip. rewrite E in Hskip.
    simpl in Hskip.
    apply orb_false_iff in Hskip as [Hskip Hy2].
    apply orb_false_iff in Hskip as [Hskip Hy1].
    apply orb_false_iff in Hskip as [Hx1 Hx2].
    apply negb_false_iff, Qle_bool_iff in Hx1.
    apply negb_false_iff, Qle_bool_iff in Hy1.
    apply Qle_bool_false in Hx2. apply Qle_bool_false in Hy2. done. }
  destruct H as [|H].
  { destruct Hs as [Hlen _]. apply length_zero_iff_nil in Hlen. subst img.
    destruct (Hsh _ _ _ eq_refl) as (? & Hx & _).
    change (x < -1 # 1) in Hx. lra. }
  destruct W as [|W].
  { destruct Hs as [Hlen Hrows].
    destruct img as [|row img]; [done|].
    apply Forall_cons in Hrows as [[Hrow _] _].
    apply length_zero_iff_nil in Hrow. subst row.
    destruct (Hsh _ _ _ eq_refl) as (? & Hx & _).
    change (x < -1 # 1) in Hx. lra. }
  split; [lia|]. split; [lia|].
  eapply Hsh, has_shape_shape; eauto; lia.
Qed.

Lemma Qfloor_range (q : Q) (n : Z) :
  0 <= q -> q < inject_Z n -> (0 <= Qfloor q /\ Qfloor q + 1 <= n)%Z.
Proof.
  intros H0 Hn. split.
  - change 0%Z with (Qfloor 0). now apply Qfloor_resp_le.
  - pose proof (Qfloor_le q) as Hle.
    assert (Hlt : inject_Z (Qfloor q) < inject_Z n) by lra.
    rewrite <- Zlt_Qlt in Hlt. lia.
Qed.

(** C7: when the skip test lets a source point through, the four lattice
    neighbours [bilinear_interpolation] reads are inside the image, so
    every one of its array accesses succeeds and it returns a value. *)
Theorem skip_test_keeps_bilinear_in_bounds
    (H W C : nat) (img : image) (x y : Q) :
  has_shape H W C img ->
  skip_test img (Fin x) (Fin y) = false ->
  let x_0 := Qfloor x in
  let y_0 := Qfloor y in
  py_int (Fin x) = Ok x_0 /\ py_int (Fin y) = Ok y_0 /\
  (0 <= x_0 /\ x_0 + 1 < Z.of_nat W)%Z /\
  (0 <= y_0 /\ y_0 + 1 < Z.of_nat H)%Z /\
  (exists p00 p01 p10 p11,
      img_get img y_0 x_0 = Ok p00 /\
      img_get img y_0 (x_0 + 1) = Ok p01 /\
      img_get img (y_0 + 1) x_0 = Ok p10 /\
      img_get img (y_0 + 1) (x_0 + 1) = Ok p11) /\
  (exists v, bilinear_interpolation img (Fin x) (Fin y) = Ok v).
Proof.
  intros Hs Hskip x_0 y_0.
  destruct (skip_test_false H W C img x y Hs Hskip)
    as (HH & HW & Hx0 & Hx1 & Hy0 & Hy1).
  destruct (Qfloor_range x _ Hx0 Hx1) as [Hfx0 Hfx1].
  destruct (Qfloor_range y _ Hy0 Hy1) as [Hfy0 Hfy1].
  fold x_0 in Hfx0, Hfx1. fold y_0 in Hfy0, Hfy1.
  assert (Hix : py_int (Fin x) = Ok x_0) by (simpl; now rewrite Qtrunc_nonneg).
  assert (Hiy : py_int (Fin y) = Ok y_0) by (simpl; now rewrite Qtrunc_nonneg).
  destruct (img_get_in_bounds H W C img y_0 x_0 Hs) as (p00 & G00 & _);
    [lia | lia |].
  destruct (img_get_in_bounds H W C img y_0 (x_0 + 1) Hs) as (p01 & G01 & _);
    [lia | lia |].
  destruct (img_get_in_bounds H W C img (y_0 + 1) x_0 Hs) as (p10 & G10 & _);
    [lia | lia |].
  destruct (img_get_in_bounds H W C img (y_0 + 1) (x_0 + 1) Hs)
    as (p11 & G11 & _); [lia | lia |].
  repeat split; try lia; try assumption.
  - exists p00, p01, p10, p11. done.
  - unfold bilinear_interpolation. rewrite Hix, Hiy. simpl.
    rewrite G00. simpl. rewrite G01. simpl. rewrite G10. simpl.
    rewrite G11. simpl. eauto.
Qed.

Lemma skip_test_keeps_bilinear_in_bounds_witness :
  let img := [[[10]; [20]; [30]]; [[40]; [50]; [60]]] in
  let x_0 := Qfloor (3 # 2) in
  let y_0 := Qfloor (1 # 3) in
  py_int (Fin (3 # 2)) = Ok x_0 /\ py_int (Fin (1 # 3)) = Ok y_0 /\
  (0 <= x_0 /\ x_0 + 1 < Z.of_nat 3)%Z /\
  (0 <= y_0 /\ y_0 + 1 < Z.of_nat 2)%Z /\
  (exists p00 p01 p10 p11,
      img_get img y_0 x_0 = Ok p00 /\
      img_get img y_0 (x_0 + 1) = Ok p01 /\
      img_get img (y_0 + 1) x_0 = Ok p10 /\
      img_get img (y_0 + 1) (x_0 + 1) = Ok p11) /\
  (exists v, bilinear_interpolation img (Fin (3 # 2)) (Fin (1 # 3)) = Ok v).
Proof.
  apply (skip_test_keeps_bilinear_in_bounds 2 3 1).
  - split; [reflexivity|]. repeat constructor.
  - reflexivity.
Defined.

(** ** The canvas geometry (lines 113-164) *)

Lemma constant_image_shape (h w c : nat) (v : Q) :
  has_shape h w c (constant_image h w c v).
Proof.
  split; [apply length_replicate|].
  apply Forall_replicate. split; [apply length_replicate|].
  apply Forall_replicate, length_replicate.
Qed.

Lemma acc_state_step_shape (st : acc_state) (i i' : ImageInfo) :
  shape (img i) = shape (img i') -> position i = position i' ->
  acc_state_step st i = acc_state_step st i'.
Proof.
  intros Hs Hp. unfold acc_state_step.
  rewrite (imageBoundingBox_shape _ _ _ Hs), Hs, Hp. reflexivity.
Qed.

(** C6, as the specification states it, fails: the canvas of the
    scenario is 149 wide and 99 high, not 150 by 100. *)
Lemma scenario_canvas_is_not_150_by_100 :
  let sz := getAccSize (scenario (constant_image 100 100 3 0)
                                 (constant_image 100 100 3 0)) in
  ~ (accWidth sz = 150%Z /\ accHeight sz = 100%Z).
Proof. vm_compute. intros [H _]. discriminate. Qed.

(** C6 (amended): for two 100x100 three-channel images, the second
    placed 50 pixels to the right of the first by a pure translation,
    [getAccSize] returns canvas width 149 and canvas height 99 (the
    corners of an image are its corner pixels (0, 0) and (W-1, H-1), and
    the size is the difference of the extreme coordinates). *)
Theorem scenario_canvas_size (imgA imgB : image) :
  has_shape 100 100 3 imgA -> has_shape 100 100 3 imgB ->
  let sz := getAccSize (scenario imgA imgB) in
  accWidth sz = 149%Z /\ accHeight sz = 99%Z /\
  channels sz = 3%Z /\ width sz = 100%Z /\
  translation sz = translate 0 0.
Proof.
  intros HA HB.
  assert (SA : shape imgA = shape (constant_image 100 100 3 0)).
  { rewrite (has_shape_shape 100 100 3 imgA) by (done || lia). reflexivity. }
  assert (SB : shape imgB = shape (constant_image 100 100 3 0)).
  { rewrite (has_shape_shape 100 100 3 imgB) by (done || lia). reflexivity. }
  unfold getAccSize, scenario. simpl fold_left.
  rewrite (acc_state_step_shape _ (mkImageInfo "A" imgA identity3)
             (mkImageInfo "A" (constant_image 100 100 3 0) identity3))
    by done.
  rewrite (acc_state_step_shape _ (mkImageInfo "B" imgB (translate 50 0))
             (mkImageInfo "B" (constant_image 100 100 3 0) (translate 50 0)))
    by done.
  vm_compute. done.
Qed.

Lemma scenario_canvas_size_witness :
  let sz := getAccSize (scenario (constant_image 100 100 3 (1 # 2))
                                 (constant_image 100 100 3 200)) in
  accWidth sz = 149%Z /\ accHeight sz = 99%Z /\
  channels sz = 3%Z /\ width sz = 100%Z /\
  translation sz = translate 0 0.
Proof.
  apply scenario_canvas_size; apply constant_image_shape.
Defined.

(** ** An empty image list *)

(** C3, as the specification states it, fails: on an empty list
    [getAccSize] returns a geometry, and the exception [blendImages]
    ends with is not of a class named [EmptyInputError]. *)
Lemma empty_list_raises_no_EmptyInputError :
  ~ (exists e, blendImages [] 20 false None = Raise e /\
               exn_class e = "EmptyInputError"%string).
Proof.
  intros (e & He & Hc). vm_compute in He. injection He as <-. discriminate.
Qed.

(** C3 (amended): on an empty image list [getAccSize] signals nothing and
    returns the geometry left by its initial values (width and height
    [-sys.maxsize], channels and width -1); [blendImages] then fails when
    [pasteImages] asks [np.zeros] for a buffer of negative dimensions,
    with a [ValueError]. *)
Theorem empty_list_behaviour (blendWidth : Q) (is360 : bool)
    (A_out : option mat3) :
  getAccSize [] =
    mkAccSize (- sys_maxsize) (- sys_maxsize) (-1) (-1)
      (translate (inject_Z (- sys_maxsize)) (inject_Z (- sys_maxsize))) /\
  blendImages [] blendWidth is360 A_out = Raise ValueError.
Proof. split; reflexivity. Qed.

(** ** Drift parameters (lines 181-213) *)

Section drift.
Variables (n : nat) (translation : mat3) (width : Z).

(** The images after the first: only the last of them assigns, and it
    assigns the final point. *)
Lemma drift_fold_tail (l : list ImageInfo) (s : nat) (st : drift_state) :
  (1 <= s)%nat -> (s + length l = n)%nat ->
  fold_left (fun st ci => drift_step n translation width ci st)
    (zip (seq s (length l)) l) st =
    match last l with
    | Some i =>
        mkDrift (d_init st)
          (Some (dehomogenize (drift_point translation width i)))
    | None => st
    end.
Proof.
  revert s st. induction l as [|a l IH]; intros s st Hs Hn; [done|].
  simpl in Hn. simpl length. simpl seq. simpl zip. simpl fold_left.
  rewrite IH by lia. unfold drift_step.
  destruct (Nat.eqb_spec s 0) as [|_]; [lia|].
  destruct l as [|b l].
  - simpl. destruct (Nat.eqb_spec s (n - 1)) as [_|Hne]; [done|].
    simpl in Hn. lia.
  - rewrite last_cons_cons.
    destruct (Nat.eqb_spec s (n - 1)) as [He|_]; [simpl in Hn; lia|].
    simpl. now destruct (last (b :: l)).
Qed.
End drift.

Lemma getDriftParams_first_last (ipv : list ImageInfo) (translation : mat3)
    (width : Z) (first final : ImageInfo) :
  head ipv = Some first -> last ipv = Some final ->
  getDriftParams ipv translation width =
    Ok (dehomogenize (drift_point translation width first),
        dehomogenize (drift_point translation width final)).
Proof.
  intros Hh Hl. destruct ipv as [|i0 rest]; [done|].
  simpl in Hh. injection Hh as ->.
  unfold getDriftParams, enumerate.
  simpl length. simpl seq. simpl zip. simpl fold_left.
  rewrite (drift_fold_tail (S (length rest))) by lia.
  destruct rest as [|i1 rest].
  - simpl in Hl. injection Hl as ->. reflexivity.
  - rewrite last_cons_cons in Hl. rewrite Hl.
    unfold drift_step. simpl. reflexivity.
Qed.

Lemma getDriftParams_nonempty (ipv : list ImageInfo) (translation : mat3)
    (width : Z) :
  ipv <> [] -> exists d, getDriftParams ipv translation width = Ok d.
Proof.
  intros Hne.
  destruct ipv as [|i0 rest]; [done|].
  destruct (last (i0 :: rest)) as [final|] eqn:Hl.
  - erewrite getDriftParams_first_last; eauto.
  - apply last_None in Hl. done.
Qed.


Lemma np_div_nonzero (a b : Q) : ~ b == 0 -> np_div a b = Fin (a / b).
Proof.
  intros Hb. unfold np_div. apply Qeq_bool_false in Hb. now rewrite Hb.
Qed.

Lemma Qdiv_by_one (a b : Q) : b == 1 -> a / b == a.
Proof. intros ->. field. Qed.

(** C8, as the specification states it, fails: in the scenario, with the
    canvas frame that of the first image, the initial point returned has
    abscissa 50, while every point (0, t) of the left edge of the first
    image sits at abscissa 0. *)
Lemma drift_init_is_not_on_the_left_edge :
  let A := mkImageInfo "A" (constant_image 100 100 3 0) identity3 in
  let B := mkImageInfo "B" (constant_image 100 100 3 0) (translate 50 0) in
  exists p_init p_final,
    getDriftParams [A; B] (translate 0 0) 100 = Ok (p_init, p_final) /\
    forall t,
      ~ npfloat_eq (fst p_init) (fst (canvas_point (translate 0 0) A 0 t)).
Proof.
  eexists; eexists. split; [vm_compute; reflexivity|].
  intros t. unfold canvas_point, dehomogenize. simpl mat_vec.
  cbv beta iota zeta.
  rewrite np_div_nonzero by lra. simpl.
  intros Heq. rewrite Qdiv_by_one in Heq by ring. lra.
Qed.

(** C8 (amended): for every image list with at least one image,
    [getDriftParams] returns as (x_init, y_init) the canvas position of
    the point (width / 2, 0) of the first image -- the midpoint of its
    top edge, [width] being the width passed in -- mapped through
    translation composed with its placement and dehomogenized, and as
    (x_final, y_final) the canvas position of the same point
    (width / 2, 0) of the last image. *)
Theorem getDriftParams_top_edge_midpoints (ipv : list ImageInfo)
    (translation : mat3) (width : Z) (first final : ImageInfo) :
  head ipv = Some first -> last ipv = Some final ->
  getDriftParams ipv translation width =
    Ok (canvas_point translation first ((1 # 2) * inject_Z width) 0,
        canvas_point translation final ((1 # 2) * inject_Z width) 0).
Proof.
  intros Hh Hl.
  now rewrite (getDriftParams_first_last _ _ _ _ _ Hh Hl).
Qed.

Lemma getDriftParams_top_edge_midpoints_witness :
  let A := mkImageInfo "A" (constant_image 4 6 3 0) identity3 in
  let B := mkImageInfo "B" (constant_image 4 6 3 0) (translate 3 1) in
  let C := mkImageInfo "C" (constant_image 4 6 3 0) (translate 7 (-1)) in
  getDriftParams [A; B; C] (translate 0 1) 6 =
    Ok (canvas_point (translate 0 1) A ((1 # 2) * inject_Z 6) 0,
        canvas_point (translate 0 1) C ((1 # 2) * inject_Z 6) 0).
Proof.
  apply getDriftParams_top_edge_midpoints; reflexivity.
Defined.

(** ** 360 mode (lines 235-246) *)

(** C4, as the specification states it, fails: what 360 mode raises is
    an instance of the base class [Exception], not of a class named
    [UnsupportedModeError]. *)
Lemma mode_360_raises_no_UnsupportedModeError :
  ~ (exists e, blendImages [white_2x2] 20 true None = Raise e /\
               exn_class e = "UnsupportedModeError"%string).
Proof.
  intros (e & He & Hc). vm_compute in He. injection He as <-. discriminate.
Qed.

(** C4 (amended): with [is360 = True], [blendImages] never returns an
    image; and for every non-empty image list that the compositing
    stages accept ([pasteImages] and [normalizeBlend] return), what it
    raises, before the final warp, is the plain
    [Exception("TODO 12 in blend.py not implemented")]. *)
Theorem blendImages_360_raises (ipv : list ImageInfo) (blendWidth : Q)
    (A_out : option mat3) :
  ipv <> [] ->
  (forall r, blendImages ipv blendWidth true A_out <> Ok r) /\
  (forall acc comp,
      let sz := getAccSize ipv in
      pasteImages ipv (translation sz) blendWidth
        (accWidth sz) (accHeight sz) (channels sz) = Ok acc ->
      normalizeBlend acc = Ok comp ->
      blendImages ipv blendWidth true A_out =
        Raise (Exception "TODO 12 in blend.py not implemented")).
Proof.
  intros Hne. split.
  - intros r. unfold blendImages.
    destruct (pasteImages _ _ _ _ _ _) as [acc|]; [simpl|done].
    destruct (normalizeBlend acc) as [comp|]; [simpl|done].
    destruct (getDriftParams _ _ _) as [d|]; [simpl|done]. done.
  - intros acc comp sz Hp Hn. unfold blendImages. fold sz.
    destruct (getDriftParams_nonempty ipv (translation sz) (width sz) Hne)
      as [d Hd].
    rewrite Hp. cbn [bind]. rewrite Hn. cbn [bind]. rewrite Hd. reflexivity.
Qed.

Lemma blendImages_360_raises_witness :
  (forall r, blendImages [white_2x2] 20 true None <> Ok r) /\
  (forall acc comp,
      let sz := getAccSize [white_2x2] in
      pasteImages [white_2x2] (translation sz) 20
        (accWidth sz) (accHeight sz) (channels sz) = Ok acc ->
      normalizeBlend acc = Ok comp ->
      blendImages [white_2x2] 20 true None =
        Raise (Exception "TODO 12 in blend.py not implemented")).
Proof.
  apply blendImages_360_raises. discriminate.
Defined.

(** ** The fold of the bounding boxes (lines 141-160) *)

Lemma fold_min_init (l : list Z) (a b : Z) :
  fold_left Z.min l (Z.min a b) = Z.min a (fold_left Z.min l b).
Proof.
  revert b. induction l as [|c l IH]; intros b; simpl; [done|].
  now rewrite <- Z.min_assoc, IH.
Qed.

Lemma fold_max_init (l : list Z) (a b : Z) :
  fold_left Z.max l (Z.max a b) = Z.max a (fold_left Z.max l b).
Proof.
  revert b. induction l as [|c l IH]; intros b; simpl; [done|].
  now rewrite <- Z.max_assoc, IH.
Qed.

Lemma acc_state_fold (ipv : list ImageInfo) (st : acc_state) :
  let st' := fold_left acc_state_step ipv st in
  st_minX st' = fold_left Z.min (map box_minX ipv) (st_minX st) /\
  st_minY st' = fold_left Z.min (map box_minY ipv) (st_minY st) /\
  st_maxX st' = fold_left Z.max (map box_maxX ipv) (st_maxX st) /\
  st_maxY st' = fold_left Z.max (map box_maxY ipv) (st_maxY st).
Proof.
  revert st. induction ipv as [|i ipv IH]; intros st; [done|].
  simpl. destruct (IH (acc_state_step st i)) as (E1 & E2 & E3 & E4).
  rewrite E1, E2, E3, E4.
  unfold acc_state_step, box_minX, box_minY, box_maxX, box_maxY.
  destruct (shape (img i)) as [[? ?] ?].
  destruct (imageBoundingBox (img i) (position i)) as [[[a b] c] d].
  done.
Qed.

Lemma fold_min_nonempty (l : list Z) (s : Z) :
  l <> [] -> (Zmin_list l <= s)%Z -> fold_left Z.min l s = Zmin_list l.
Proof.
  destruct l as [|a l]; [done|]. intros _ Hle. simpl in *.
  rewrite fold_min_init. lia.
Qed.

Lemma fold_max_nonempty (l : list Z) (s : Z) :
  l <> [] -> (s <= Zmax_list l)%Z -> fold_left Z.max l s = Zmax_list l.
Proof.
  destruct l as [|a l]; [done|]. intros _ Hle. simpl in *.
  rewrite fold_max_init. lia.
Qed.

(** C5, as the specification states it, fails: a 2x2 image placed half a
    pixel to the right has its corners at abscissas 1/2 and 3/2, so the
    enclosing width of the specification is ceil(3/2) - floor(1/2) = 2,
    while [getAccSize] works on the truncated box and returns 1 - 0 = 1. *)
Lemma canvas_is_not_the_enclosing_box :
  accWidth (getAccSize [half_pixel_right]) = 1%Z /\
  enclosing_width [half_pixel_right] = 2%Z /\
  ~ (accWidth (getAccSize [half_pixel_right])
       = enclosing_width [half_pixel_right] /\
     accHeight (getAccSize [half_pixel_right])
       = enclosing_height [half_pixel_right]).
Proof.
  split; [reflexivity|]. split; [reflexivity|].
  intros [H _]. vm_compute in H. discriminate.
Qed.

(** C5 (amended): for every non-empty image list whose boxes reach the
    non-negative quadrant (the greatest [maxX] and the greatest [maxY]
    are at least 0) and stay below [sys.maxsize], the canvas width
    [getAccSize] returns is the greatest [maxX] minus the least [minX],
    and the height the greatest [maxY] minus the least [minY], where the
    extrema are those of the per-image boxes of [imageBoundingBox]: the
    corner extrema of each image truncated toward zero.  The translation
    moves the least corner to the origin. *)
Theorem getAccSize_spans_the_boxes (ipv : list ImageInfo) :
  ipv <> [] ->
  let MinX := Zmin_list (map box_minX ipv) in
  let MinY := Zmin_list (map box_minY ipv) in
  let MaxX := Zmax_list (map box_maxX ipv) in
  let MaxY := Zmax_list (map box_maxY ipv) in
  (0 <= MaxX)%Z -> (0 <= MaxY)%Z ->
  (MinX <= sys_maxsize)%Z -> (MinY <= sys_maxsize)%Z ->
  accWidth (getAccSize ipv) = (MaxX - MinX)%Z /\
  accHeight (getAccSize ipv) = (MaxY - MinY)%Z /\
  translation (getAccSize ipv) =
    translate (inject_Z (- MinX)) (inject_Z (- MinY)).
Proof.
  intros Hne MinX MinY MaxX MaxY HX HY HmX HmY.
  assert (Hm : forall f : ImageInfo -> Z, map f ipv <> [])
    by (intros f; destruct ipv; done).
  unfold getAccSize.
  destruct (acc_state_fold ipv acc_state_init) as (E1 & E2 & E3 & E4).
  simpl in E1, E2, E3, E4.
  rewrite fold_min_nonempty in E1, E2 by (apply Hm || assumption).
  rewrite fold_max_nonempty in E3, E4 by (apply Hm || assumption).
  cbn [accWidth accHeight translation].
  rewrite E1, E2, E3, E4, !Qceiling_Z, !Qfloor_Z. done.
Qed.

Lemma getAccSize_spans_the_boxes_witness :
  let ipv := [half_pixel_right;
              mkImageInfo "left" (constant_image 3 4 3 0) (translate (-5) 2)] in
  accWidth (getAccSize ipv)
    = (Zmax_list (map box_maxX ipv) - Zmin_list (map box_minX ipv))%Z /\
  accHeight (getAccSize ipv)
    = (Zmax_list (map box_maxY ipv) - Zmin_list (map box_minY ipv))%Z /\
  translation (getAccSize ipv) =
    translate (inject_Z (- Zmin_list (map box_minX ipv)))
              (inject_Z (- Zmin_list (map box_minY ipv))).
Proof.
  apply getAccSize_spans_the_boxes; [discriminate | | | |]; vm_compute;
    discriminate.
Defined.

(** ** Accumulation never decreases a cell (lines 59-92) *)

Lemma for_each_rel {A S} (R : S -> S -> Prop) (body : A -> S -> result S)
    (l : list A) :
  (forall s, R s s) -> (forall s1 s2 s3, R s1 s2 -> R s2 s3 -> R s1 s3) ->
  (forall a s s', a ∈ l -> body a s = Ok s' -> R s s') ->
  forall s s', for_each body l s = Ok s' -> R s s'.
Proof.
  intros Hrefl Htrans. induction l as [|a l IH]; intros Hbody s s' Hrun.
  - simpl in Hrun. injection Hrun as <-. apply Hrefl.
  - simpl in Hrun. destruct (body a s) as [s1|] eqn:Hb; [|done].
    simpl in Hrun. apply (Htrans _ s1).
    + eapply Hbody; [left|exact Hb].
    + apply IH; [|exact Hrun]. intros. eapply Hbody; [right|]; eauto.
Qed.

Lemma pixel_le_refl (p : list Q) : Forall2 Qle p p.
Proof. induction p; constructor; [apply Qle_refl | done]. Qed.

Lemma pixel_le_trans (p q r : list Q) :
  Forall2 Qle p q -> Forall2 Qle q r -> Forall2 Qle p r.
Proof.
  intros H. revert r. induction H as [|a b p q Hab _ IH]; intros r Hr.
  - inversion Hr. constructor.
  - inversion Hr as [|b' c q' r' Hbc Hqr]; subst. constructor.
    + eapply Qle_trans; eauto.
    + now apply IH.
Qed.

Lemma buffer_le_refl (acc : image) : buffer_le acc acc.
Proof.
  unfold buffer_le. induction acc as [|row acc IH]; constructor; [|done].
  induction row; constructor; [apply pixel_le_refl | done].
Qed.

Lemma buffer_le_trans (a b c : image) :
  buffer_le a b -> buffer_le b c -> buffer_le a c.
Proof.
  unfold buffer_le. intros Hab. revert c.
  induction Hab as [|r1 r2 a b Hr _ IH]; intros c Hbc.
  - inversion Hbc. constructor.
  - inversion Hbc as [|r2' r3 b' c' Hr' Hbc']; subst. constructor.
    + clear -Hr Hr'. revert r3 Hr'.
      induction Hr as [|p q r1 r2 Hpq _ IHr]; intros r3 Hr'.
      * inversion Hr'. constructor.
      * inversion Hr'; subst. constructor; [|now apply IHr].
        eapply pixel_le_trans; eauto.
    + now apply IH.
Qed.

(** Replacing one cell by a larger one. *)
Lemma buffer_le_insert (acc : image) (y x : nat) (row : list (list Q))
    (cell cell' : list Q) :
  acc !! y = Some row -> row !! x = Some cell -> Forall2 Qle cell cell' ->
  buffer_le acc (<[y := <[x := cell']> row]> acc).
Proof.
  intros Hy Hx Hle. unfold buffer_le.
  rewrite <- (list_insert_id acc y row Hy) at 1.
  apply Forall2_insert; [apply buffer_le_refl|].
  rewrite <- (list_insert_id row x cell Hx) at 1.
  apply Forall2_insert; [|done].
  clear. induction row; constructor; [apply pixel_le_refl | done].
Qed.

Lemma img_get_nonneg (img : image) (y x : Z) (p : list Q) :
  img_nonneg img -> img_get img y x = Ok p -> Forall (fun v => 0 <= v) p.
Proof.
  intros Hnn Hget. unfold img_get in Hget.
  destruct (shape img) as [[H W] C].
  destruct (np_index H y) as [j|]; [simpl in Hget|done].
  destruct (np_index W x) as [i|]; [simpl in Hget|done].
  destruct (img !! j) as [row|] eqn:Hrow; [|done].
  destruct (row !! i) as [q|] eqn:Hq; [|done].
  injection Hget as ->.
  apply (proj1 (Forall_lookup _ _) Hnn) in Hrow.
  exact (proj1 (Forall_lookup _ _) Hrow i p Hq).
Qed.

Lemma to_unit_range_nonneg (img : image) :
  img_nonneg img -> img_nonneg (to_unit_range img).
Proof.
  unfold img_nonneg, to_unit_range. intros Hnn.
  apply Forall_fmap. eapply Forall_impl; [exact Hnn|]. intros row Hrow.
  apply Forall_fmap. eapply Forall_impl; [exact Hrow|]. intros p Hp.
  apply Forall_fmap. eapply Forall_impl; [exact Hp|]. intros v Hv.
  cbv beta in *. apply Qle_shift_div_l; [reflexivity | lra].
Qed.

Lemma pix_scale_nonneg (p : list Q) (s : Q) :
  0 <= s -> Forall (fun v => 0 <= v) p -> Forall (fun v => 0 <= v) (pix_scale p s).
Proof.
  intros Hs Hp. unfold pix_scale. apply Forall_fmap.
  eapply Forall_impl; [exact Hp|]. intros v Hv. simpl.
  now apply Qmult_le_0_compat.
Qed.

Lemma pix_add_nonneg (p q : list Q) :
  Forall (fun v => 0 <= v) p -> Forall (fun v => 0 <= v) q ->
  Forall (fun v => 0 <= v) (pix_add p q).
Proof.
  intros Hp. revert q. induction Hp as [|a p Ha _ IH]; intros q Hq; [constructor|].
  destruct Hq as [|b q Hb Hq]; [constructor|].
  simpl. constructor; [cbv beta in *; lra | now apply IH].
Qed.

Lemma frac_part_range (q : Q) :
  0 <= q - inject_Z (Qfloor q) /\ 0 <= 1 - (q - inject_Z (Qfloor q)).
Proof.
  pose proof (Qfloor_le q). pose proof (Qlt_floor q) as Hlt.
  rewrite inject_Z_plus in Hlt. change (inject_Z 1) with 1 in Hlt.
  split; lra.
Qed.

(** A sample taken where the guard lets it be taken is non-negative. *)
Lemma bilinear_interpolation_nonneg (img : image) (vx vy : npfloat)
    (pv : list Q) :
  img_nonneg img ->
  skip_test img vx vy = false ->
  bilinear_interpolation img vx vy = Ok pv ->
  Forall (fun v => 0 <= v) pv.
Proof.
  intros Hnn Hskip Hbil.
  destruct vx as [qx| | |]; try done. destruct vy as [qy| | |]; try done.
  assert (Hx : 0 <= qx /\ 0 <= qy).
  { unfold skip_test in Hskip. destruct (shape img) as [[iH iW] ?].
    apply orb_false_iff in Hskip as [Hskip _].
    apply orb_false_iff in Hskip as [Hskip Hy1].
    apply orb_false_iff in Hskip as [Hx1 _].
    apply negb_false_iff, Qle_bool_iff in Hx1.
    apply negb_false_iff, Qle_bool_iff in Hy1. done. }
  destruct Hx as [Hx Hy].
  unfold bilinear_interpolation in Hbil. simpl in Hbil.
  rewrite !Qtrunc_nonneg in Hbil by assumption.
  destruct (frac_part_range qx) as [Hdx Hdx'].
  destruct (frac_part_range qy) as [Hdy Hdy'].
  destruct (img_get img (Qfloor qy) (Qfloor qx)) as [p00|] eqn:G00;
    [simpl in Hbil|done].
  destruct (img_get img (Qfloor qy) (Qfloor qx + 1)) as [p01|] eqn:G01;
    [simpl in Hbil|done].
  destruct (img_get img (Qfloor qy + 1) (Qfloor qx)) as [p10|] eqn:G10;
    [simpl in Hbil|done].
  destruct (img_get img (Qfloor qy + 1) (Qfloor qx + 1)) as [p11|] eqn:G11;
    [simpl in Hbil|done].
  injection Hbil as <-.
  apply (img_get_nonneg _ _ _ _ Hnn) in G00, G01, G10, G11.
  repeat apply pix_add_nonneg; repeat apply pix_scale_nonneg; assumption.
Qed.

Lemma blend_weight_nonneg (x W : nat) (b w : Q) :
  0 < b -> (x <= W)%nat -> blend_weight x W b = Ok w -> 0 <= w.
Proof.
  intros Hb Hx Hw. rewrite blend_weight_ok in Hw by lra. injection Hw as <-.
  apply Qle_shift_div_l; [exact Hb|].
  destruct (Qmin3_spec (inject_Z (Z.of_nat x)) b
              (inject_Z (Z.of_nat W - Z.of_nat x))) as (_ & _ & _ & Hm).
  assert (H1 : 0 <= inject_Z (Z.of_nat x))
    by (change 0 with (inject_Z 0); rewrite <- Zle_Qle; lia).
  assert (H2 : 0 <= inject_Z (Z.of_nat W - Z.of_nat x))
    by (change 0 with (inject_Z 0); rewrite <- Zle_Qle; lia).
  destruct Hm as [E | [E | E]]; rewrite E; lra.
Qed.

Lemma iadd_slice3_le (cell v cell' : list Q) :
  Forall (fun a => 0 <= a) v ->
  iadd_slice3 cell v = Ok cell' -> Forall2 Qle cell cell'.
Proof.
  intros Hv Hadd. unfold iadd_slice3 in Hadd.
  rewrite <- (take_drop 3 cell) at 1.
  destruct (Nat.eqb_spec (length v) (length (take 3 cell))) as [Hlen|_].
  - injection Hadd as <-. apply Forall2_app; [|apply pixel_le_refl].
    generalize dependent (take 3 cell). intros tgt. revert v Hv.
    induction tgt as [|a tgt IH]; intros v Hv Hlen; [constructor|].
    destruct Hv as [|b v Hb Hv]; [done|]. simpl. constructor.
    + cbv beta in *. lra.
    + apply IH; [done|]. simpl in Hlen. lia.
  - destruct (Nat.eqb_spec (length v) 1) as [Hone|_]; [|done].
    injection Hadd as <-. apply Forall2_app; [|apply pixel_le_refl].
    assert (H0 : 0 <= hd 0 v) by (destruct Hv; simpl; cbv beta in *; lra).
    induction (take 3 cell) as [|a tgt IH]; constructor; [simpl; lra | done].
Qed.

Lemma iadd_at3_le (cell cell' : list Q) (w : Q) :
  0 <= w -> iadd_at3 cell w = Ok cell' -> Forall2 Qle cell cell'.
Proof.
  intros Hw Hadd. unfold iadd_at3 in Hadd.
  destruct (cell !! 3%nat) as [a|] eqn:Ha; [|done]. injection Hadd as <-.
  rewrite <- (list_insert_id cell 3 a Ha) at 1.
  apply Forall2_insert; [apply pixel_le_refl | lra].
Qed.

(** One iteration leaves the cell where it was or above. *)
Lemma blend_cell_le (img : image) (inverse_M : mat3) (b : Q) (W y x : nat)
    (cell cell' : list Q) :
  img_nonneg img -> 0 < b -> (x <= W)%nat ->
  blend_cell img inverse_M b W y x cell = Ok cell' ->
  Forall2 Qle cell cell'.
Proof.
  intros Hnn Hb Hx Hcell. unfold blend_cell in Hcell.
  destruct (mat_vec inverse_M _) as [[ix iy] iz].
  destruct (skip_test img (np_div ix iz) (np_div iy iz)) eqn:Hskip.
  { injection Hcell as <-. apply pixel_le_refl. }
  destruct (bilinear_interpolation img _ _) as [pv|] eqn:Hbil;
    [simpl in Hcell|done].
  destruct (blend_weight x W b) as [w|] eqn:Hw; [simpl in Hcell|done].
  destruct (iadd_slice3 cell (pix_scale pv w)) as [cell1|] eqn:H1;
    [simpl in Hcell|done].
  pose proof (blend_weight_nonneg _ _ _ _ Hb Hx Hw) as Hw0.
  pose proof (bilinear_interpolation_nonneg _ _ _ _ Hnn Hskip Hbil) as Hpv.
  eapply pixel_le_trans.
  - eapply iadd_slice3_le; [|exact H1]. now apply pix_scale_nonneg.
  - eapply iadd_at3_le; eauto.
Qed.

(** C10: on an image with non-negative pixel values and with
    [blendWidth > 0], a call of [accumulateBlend] that returns leaves
    every cell of the accumulation buffer -- the colour channels and the
    weight channel -- at or above its value before the call. *)
Theorem accumulateBlend_nondecreasing (img acc acc' : image) (M : mat3)
    (blendWidth : Q) :
  img_nonneg img -> 0 < blendWidth ->
  accumulateBlend img acc M blendWidth = Ok acc' ->
  buffer_le acc acc'.
Proof.
  intros Hnn Hb Hrun. unfold accumulateBlend in Hrun.
  destruct (shape acc) as [[H W] C].
  destruct (linalg_inv M) as [inverse_M|]; [simpl in Hrun|done].
  revert Hrun. apply for_each_rel;
    [apply buffer_le_refl | apply buffer_le_trans |].
  intros y a a' _. apply for_each_rel;
    [apply buffer_le_refl | apply buffer_le_trans |].
  intros x s s' Hx Hat. apply elem_of_seq in Hx.
  unfold blend_at in Hat.
  destruct (s !! y) as [row|] eqn:Hrow; [|done].
  destruct (row !! x) as [cell|] eqn:Hc; [|done].
  destruct (blend_cell _ _ _ _ _ _ _) as [cell'|] eqn:Hcell; [|done].
  injection Hat as <-.
  eapply buffer_le_insert; eauto.
  eapply blend_cell_le; [| |  |exact Hcell];
    [now apply to_unit_range_nonneg | done | lia].
Qed.

Lemma constant_image_nonneg (h w c : nat) (v : Q) :
  0 <= v -> img_nonneg (constant_image h w c v).
Proof.
  intros Hv. unfold img_nonneg, constant_image.
  now do 3 apply Forall_replicate.
Qed.

Lemma accumulateBlend_nondecreasing_witness :
  exists acc',
    accumulateBlend (constant_image 3 3 3 200) (constant_image 2 2 4 0)
      identity3 1 = Ok acc' /\
    buffer_le (constant_image 2 2 4 0) acc'.
Proof.
  eexists. split; [vm_compute; reflexivity|].
  apply (accumulateBlend_nondecreasing (constant_image 3 3 3 200) _ _
           identity3 1).
  - apply constant_image_nonneg. unfold Qle. simpl. lia.
  - reflexivity.
  - vm_compute. reflexivity.
Defined.

(** ** The pixel loop, cell by cell *)

Lemma upd_loop_cons {A} (f : nat -> A -> result A) (x : nat) (xs : list nat)
    (l : list A) :
  upd_loop f (x :: xs) l =
    match l !! x with
    | Some a =>
        match f x a with
        | Ok a' => upd_loop f xs (<[x := a']> l)
        | Raise e => Raise e
        end
    | None => Raise IndexError
    end.
Proof.
  unfold upd_loop. simpl. unfold upd_at at 1.
  destruct (l !! x) as [a|]; [|done]. now destruct (f x a).
Qed.

Lemma upd_loop_seq_lookup {A} (f : nat -> A -> result A) (k s : nat)
    (l l' : list A) :
  upd_loop f (seq s k) l = Ok l' ->
  length l' = length l /\
  forall i,
    ((s <= i < s + k)%nat ->
       exists a a', l !! i = Some a /\ f i a = Ok a' /\ l' !! i = Some a') /\
    (~ (s <= i < s + k)%nat -> l' !! i = l !! i).
Proof.
  revert s l. induction k as [|k IH]; intros s l Hrun.
  { simpl in Hrun. injection Hrun as <-. split; [done|].
    intros i. split; [lia | done]. }
  change (seq s (S k)) with (s :: seq (S s) k) in Hrun.
  rewrite upd_loop_cons in Hrun.
  destruct (l !! s) as [a|] eqn:Hs; [|done].
  destruct (f s a) as [a'|] eqn:Hf; [|done].
  destruct (IH _ _ Hrun) as [Hlen Hpt]. rewrite length_insert in Hlen.
  split; [done|]. intros i.
  pose proof (lookup_lt_Some _ _ _ Hs) as Hlt.
  destruct (decide (i = s)) as [->|Hne].
  - split; [intros _|lia]. exists a, a'. split; [done|]. split; [done|].
    rewrite (proj2 (Hpt s)) by lia. now apply list_lookup_insert_eq.
  - split.
    + intros Hi. destruct (proj1 (Hpt i)) as (b & b' & Hb & Hfb & Hb');
        [lia|].
      rewrite list_lookup_insert_ne in Hb by done. eauto.
    + intros Hi. rewrite (proj2 (Hpt i)) by lia.
      now apply list_lookup_insert_ne.
Qed.

Lemma upd_loop_seq_total {A} (f : nat -> A -> result A) (k s : nat)
    (l : list A) :
  (s + k <= length l)%nat ->
  (forall i a, (s <= i < s + k)%nat -> l !! i = Some a ->
               exists a', f i a = Ok a') ->
  exists l', upd_loop f (seq s k) l = Ok l'.
Proof.
  revert s l. induction k as [|k IH]; intros s l Hlen Hf;
    [exists l; reflexivity|].
  destruct (lookup_lt_is_Some_2 l s) as [a Ha]; [lia|].
  destruct (Hf s a) as [a' Ha']; [lia | done |].
  change (seq s (S k)) with (s :: seq (S s) k).
  rewrite upd_loop_cons, Ha, Ha'.
  apply IH.
  - rewrite length_insert. lia.
  - intros i b Hi Hb. rewrite list_lookup_insert_ne in Hb by lia.
    apply (Hf i b); [lia | done].
Qed.

Section pixel_loop.
Variables (img : list (list (list Q))) (inverse_M : mat3) (blendWidth : Q).
Variable W : nat.

(** The inner loop only rewrites row [y] of the buffer. *)
Lemma inner_loop_row (y : nat) (xs : list nat) (acc : list (list (list Q)))
    (row : list (list Q)) :
  acc !! y = Some row ->
  for_each (fun x acc => blend_at img inverse_M blendWidth W y x acc) xs acc =
    let* row' := upd_loop (blend_cell img inverse_M blendWidth W y) xs row in
    Ok (<[y := row']> acc).
Proof.
  revert acc row. induction xs as [|x xs IH]; intros acc row Hy.
  { simpl. now rewrite list_insert_id. }
  rewrite upd_loop_cons. cbn [for_each]. unfold blend_at at 1. rewrite Hy.
  destruct (row !! x) as [cell|]; [|done].
  destruct (blend_cell _ _ _ _ _ _ _) as [cell'|]; [cbn [bind]|done].
  pose proof (lookup_lt_Some _ _ _ Hy) as Hlt.
  rewrite (IH _ (<[x := cell']> row)) by now apply list_lookup_insert_eq.
  destruct (upd_loop _ xs _) as [row'|]; [cbn [bind]|done].
  now rewrite list_insert_insert_eq.
Qed.

Lemma outer_loop_rows (xs : list nat) (k s : nat)
    (acc : list (list (list Q))) :
  (s + k <= length acc)%nat ->
  for_each
    (fun y acc =>
       for_each (fun x acc => blend_at img inverse_M blendWidth W y x acc)
         xs acc)
    (seq s k) acc =
  upd_loop (fun y row => upd_loop (blend_cell img inverse_M blendWidth W y) xs row)
    (seq s k) acc.
Proof.
  revert s acc. induction k as [|k IH]; intros s acc Hlen; [done|].
  destruct (lookup_lt_is_Some_2 acc s) as [row Hrow]; [lia|].
  change (seq s (S k)) with (s :: seq (S s) k).
  rewrite upd_loop_cons, Hrow. cbn [for_each].
  rewrite (inner_loop_row s xs acc row Hrow).
  destruct (upd_loop _ xs row) as [row'|]; [cbn [bind]|done].
  apply IH. rewrite length_insert. lia.
Qed.
End pixel_loop.

Lemma has_shape_dims (H W C : nat) (acc : list (list (list Q))) :
  has_shape H W C acc ->
  length acc = H /\ ((0 < H)%nat -> length (hd [] acc) = W) /\
  (forall y row, acc !! y = Some row -> length row = W).
Proof.
  intros [Hlen Hrows]. split; [done|]. split.
  - intros HH. destruct acc as [|row acc]; simpl in *; [lia|].
    now apply Forall_cons in Hrows as [[? _] _].
  - intros y row Hy. now apply (proj1 (Forall_lookup _ _) Hrows) in Hy.
Qed.

Lemma cell_at_lt {A} (a : list (list A)) (y x : nat) (c : A) :
  cell_at a y x = Some c ->
  exists row, a !! y = Some row /\ row !! x = Some c /\
              (y < length a)%nat /\ (x < length row)%nat.
Proof.
  unfold cell_at. destruct (a !! y) as [row|] eqn:Hy; [|done].
  intros Hx. exists row. repeat split; [done | |].
  - eapply lookup_lt_Some; eauto.
  - eapply lookup_lt_Some; eauto.
Qed.

(** The buffer after [accumulateBlend], cell by cell: every cell is what
    one iteration of the loop body makes of the cell before the call. *)
Lemma accumulateBlend_cells (H W C : nat) (img acc acc' : list (list (list Q)))
    (M inverse_M : mat3) (blendWidth : Q) :
  has_shape H W C acc ->
  linalg_inv M = Ok inverse_M ->
  accumulateBlend img acc M blendWidth = Ok acc' ->
  length acc' = H /\
  (forall y row', acc' !! y = Some row' -> length row' = W) /\
  (forall y x cell,
      cell_at acc y x = Some cell ->
      exists cell',
        blend_cell (to_unit_range img) inverse_M blendWidth W y x cell
          = Ok cell' /\
        cell_at acc' y x = Some cell').
Proof.
  intros Hs Hinv Hrun.
  destruct (has_shape_dims _ _ _ _ Hs) as (Hlen & Hhd & Hrow).
  unfold accumulateBlend, shape in Hrun. rewrite Hinv in Hrun.
  cbn [bind] in Hrun. unfold range in Hrun.
  rewrite outer_loop_rows in Hrun by lia.
  destruct (upd_loop_seq_lookup _ _ _ _ _ Hrun) as [Hlen' Hpt].
  destruct (Nat.eq_dec H 0%nat) as [E0|HH].
  { rewrite E0 in Hlen. apply length_zero_iff_nil in Hlen. subst acc.
    apply length_zero_iff_nil in Hlen'. subst acc'. done. }
  rewrite Hhd in Hpt by lia.
  split; [lia|]. split.
  - intros y row' Hy. pose proof (lookup_lt_Some _ _ _ Hy) as Hlt.
    destruct (proj1 (Hpt y)) as (row & row2 & Hr & Hloop & Hr2); [lia|].
    rewrite Hy in Hr2. injection Hr2 as <-.
    destruct (upd_loop_seq_lookup _ _ _ _ _ Hloop) as [E _].
    rewrite E. eauto.
  - intros y x cell Hcell.
    destruct (cell_at_lt _ _ _ _ Hcell) as (row & Hy & Hx & Hylt & Hxlt).
    destruct (proj1 (Hpt y)) as (row1 & row' & Hr & Hloop & Hr'); [lia|].
    rewrite Hy in Hr. injection Hr as <-.
    destruct (upd_loop_seq_lookup _ _ _ _ _ Hloop) as [_ Hcpt].
    rewrite (Hrow _ _ Hy) in Hxlt.
    destruct (proj1 (Hcpt x)) as (c & c' & Hc & Hbc & Hc'); [lia|].
    rewrite Hx in Hc. injection Hc as <-.
    exists c'. split; [done|]. unfold cell_at. now rewrite Hr'.
Qed.

Lemma accumulateBlend_total (H W C : nat) (img acc : list (list (list Q)))
    (M inverse_M : mat3) (blendWidth : Q) :
  has_shape H W C acc ->
  linalg_inv M = Ok inverse_M ->
  (forall y x cell,
      cell_at acc y x = Some cell ->
      exists cell',
        blend_cell (to_unit_range img) inverse_M blendWidth W y x cell
          = Ok cell') ->
  exists acc', accumulateBlend img acc M blendWidth = Ok acc'.
Proof.
  intros Hs Hinv Hcells.
  destruct (has_shape_dims _ _ _ _ Hs) as (Hlen & Hhd & Hrow).
  unfold accumulateBlend, shape. rewrite Hinv. cbn [bind]. unfold range.
  rewrite outer_loop_rows by lia.
  apply upd_loop_seq_total; [lia|].
  intros y row Hy Hr. rewrite Hhd by lia.
  apply upd_loop_seq_total; [rewrite (Hrow _ _ Hr); lia|].
  intros x cell Hx Hc. apply Hcells. unfold cell_at. now rewrite Hr.
Qed.

(** ** One image at the identity *)

Lemma perspectiveTransform_identity (x y : Q) :
  fst (perspectiveTransform identity3 (x, y)) == x /\
  snd (perspectiveTransform identity3 (x, y)) == y.
Proof.
  unfold perspectiveTransform. simpl. split; field; lra.
Qed.

Lemma np_min4 (a b c d lo : Q) :
  lo <= a -> lo <= b -> lo <= c -> lo <= d ->
  a == lo \/ b == lo \/ c == lo \/ d == lo ->
  np_min [a; b; c; d] == lo.
Proof.
  intros Ha Hb Hc Hd Hlo. unfold np_min. simpl.
  destruct (Q.min_spec a b) as [[? E1] | [? E1]];
    destruct (Q.min_spec (Qmin a b) c) as [[? E2] | [? E2]];
    destruct (Q.min_spec (Qmin (Qmin a b) c) d) as [[? E3] | [? E3]];
    rewrite E3; try rewrite E2; try rewrite E1;
    rewrite ?E2, ?E1 in *; lra.
Qed.

Lemma np_max4 (a b c d hi : Q) :
  a <= hi -> b <= hi -> c <= hi -> d <= hi ->
  a == hi \/ b == hi \/ c == hi \/ d == hi ->
  np_max [a; b; c; d] == hi.
Proof.
  intros Ha Hb Hc Hd Hhi. unfold np_max. simpl.
  destruct (Q.max_spec a b) as [[? E1] | [? E1]];
    destruct (Q.max_spec (Qmax a b) c) as [[? E2] | [? E2]];
    destruct (Q.max_spec (Qmax (Qmax a b) c) d) as [[? E3] | [? E3]];
    rewrite E3; try rewrite E2; try rewrite E1;
    rewrite ?E2, ?E1 in *; lra.
Qed.

(** The box of an image placed by the identity is the box of its corner
    pixels. *)
Lemma imageBoundingBox_identity (H W C : nat) (img : list (list (list Q))) :
  has_shape H W C img -> (1 <= H)%nat -> (1 <= W)%nat ->
  imageBoundingBox img identity3 =
    (0, 0, Z.of_nat W - 1, Z.of_nat H - 1)%Z.
Proof.
  intros Hs HH HW. unfold imageBoundingBox, transformed_corners.
  rewrite (has_shape_shape H W C) by (done || lia).
  cbn [map].
  set (h := inject_Z (Z.of_nat H)). set (w := inject_Z (Z.of_nat W)).
  assert (Hh : 0 <= h - 1).
  { assert (E : inject_Z 1 <= h) by (unfold h; rewrite <- Zle_Qle; lia).
    change (inject_Z 1) with 1 in E. lra. }
  assert (Hw : 0 <= w - 1).
  { assert (E : inject_Z 1 <= w) by (unfold w; rewrite <- Zle_Qle; lia).
    change (inject_Z 1) with 1 in E. lra. }
  destruct (perspectiveTransform_identity 0 0) as [X0 Y0].
  destruct (perspectiveTransform_identity 0 (h - 1)) as [X1 Y1].
  destruct (perspectiveTransform_identity (w - 1) (h - 1)) as [X2 Y2].
  destruct (perspectiveTransform_identity (w - 1) 0) as [X3 Y3].
  assert (Ew : w - 1 == inject_Z (Z.of_nat W - 1)).
  { unfold w, Zminus. rewrite inject_Z_plus. reflexivity. }
  assert (Eh : h - 1 == inject_Z (Z.of_nat H - 1)).
  { unfold h, Zminus. rewrite inject_Z_plus. reflexivity. }
  assert (Hz : forall q z, q == inject_Z z -> Qtrunc q = z).
  { intros q z E. rewrite (Qtrunc_comp _ _ E). apply Qtrunc_Z. }
  f_equal; [f_equal; [f_equal|]|]; apply Hz.
  - change (inject_Z 0) with 0. apply np_min4; lra.
  - change (inject_Z 0) with 0. apply np_min4; lra.
  - rewrite <- Ew. apply np_max4; lra.
  - rewrite <- Eh. apply np_max4; lra.
Qed.

Lemma getAccSize_single_identity (H W C : nat) (nm : string)
    (pic : list (list (list Q))) :
  has_shape H W C pic -> (1 <= H)%nat -> (1 <= W)%nat ->
  getAccSize [mkImageInfo nm pic identity3] =
    mkAccSize (Z.of_nat W - 1) (Z.of_nat H - 1) (Z.of_nat C) (Z.of_nat W)
      (translate 0 0).
Proof.
  intros Hs HH HW. unfold getAccSize. cbn [fold_left].
  unfold acc_state_step. cbn [img position].
  rewrite (imageBoundingBox_identity H W C) by done.
  rewrite (has_shape_shape H W C) by (done || lia).
  cbn -[Z.sub Z.of_nat Qceiling Qfloor inject_Z].
  rewrite !Qceiling_Z, !Qfloor_Z.
  replace (Z.max 0 (Z.of_nat W - 1)) with (Z.of_nat W - 1)%Z by lia.
  replace (Z.max 0 (Z.of_nat H - 1)) with (Z.of_nat H - 1)%Z by lia.
  change (Z.min sys_maxsize 0) with 0%Z. rewrite !Z.sub_0_r. reflexivity.
Qed.

Lemma to_unit_range_shape (H W C : nat) (pic : list (list (list Q))) :
  has_shape H W C pic -> has_shape H W C (to_unit_range pic).
Proof.
  intros [Hlen Hrows]. unfold to_unit_range. split.
  - now rewrite length_map.
  - apply Forall_fmap. eapply Forall_impl; [exact Hrows|].
    intros row [Hrow Hpix]. unfold compose. split; [now rewrite length_map|].
    apply Forall_fmap. eapply Forall_impl; [exact Hpix|].
    intros p Hp. unfold compose. now rewrite length_map.
Qed.

Lemma to_unit_range_cell (pic : list (list (list Q))) (y x : nat)
    (p : list Q) :
  cell_at pic y x = Some p ->
  cell_at (to_unit_range pic) y x = Some (map (fun v => v / 255) p).
Proof.
  unfold cell_at, to_unit_range. rewrite list_lookup_fmap.
  destruct (pic !! y) as [row|]; [|done]. simpl.
  rewrite list_lookup_fmap. intros ->. reflexivity.
Qed.

Lemma skip_test_inside (H W C : nat) (pic : list (list (list Q)))
    (qx qy : Q) :
  has_shape H W C pic -> (0 < H)%nat -> (0 < W)%nat ->
  0 <= qx -> qx < inject_Z (Z.of_nat W - 1) ->
  0 <= qy -> qy < inject_Z (Z.of_nat H - 1) ->
  skip_test pic (Fin qx) (Fin qy) = false.
Proof.
  intros Hs HH HW Hx0 Hx1 Hy0 Hy1. unfold skip_test.
  rewrite (has_shape_shape H W C) by done. cbn [np_lt np_ge].
  apply Qle_bool_iff in Hx0, Hy0. apply Qle_bool_false in Hx1, Hy1.
  now rewrite Hx0, Hx1, Hy0, Hy1.
Qed.

(** At a lattice point that has a right and a lower neighbour the
    sampler returns the pixel itself. *)
Lemma bilinear_at_lattice (H W : nat) (pic : list (list (list Q)))
    (qx qy : Q) (x y : nat) (a0 a1 a2 : Q) :
  has_shape H W 3 pic ->
  qx == inject_Z (Z.of_nat x) -> qy == inject_Z (Z.of_nat y) ->
  (x + 1 < W)%nat -> (y + 1 < H)%nat ->
  cell_at pic y x = Some [a0; a1; a2] ->
  exists v0 v1 v2,
    bilinear_interpolation pic (Fin qx) (Fin qy) = Ok [v0; v1; v2] /\
    v0 == a0 /\ v1 == a1 /\ v2 == a2.
Proof.
  intros Hs Hqx Hqy Hx Hy Hcell.
  assert (Tx : Qtrunc qx = Z.of_nat x)
    by (rewrite (Qtrunc_comp _ _ Hqx); apply Qtrunc_Z).
  assert (Ty : Qtrunc qy = Z.of_nat y)
    by (rewrite (Qtrunc_comp _ _ Hqy); apply Qtrunc_Z).
  unfold bilinear_interpolation. cbn [py_int bind np_val]. rewrite Tx, Ty.
  destruct (img_get_in_bounds H W 3 pic (Z.of_nat y) (Z.of_nat x) Hs)
    as (p00 & G00 & C00 & _); [lia | lia |].
  rewrite !Nat2Z.id, Hcell in C00. injection C00 as <-.
  destruct (img_get_in_bounds H W 3 pic (Z.of_nat y) (Z.of_nat x + 1) Hs)
    as (p01 & G01 & _ & L01); [lia | lia |].
  destruct (img_get_in_bounds H W 3 pic (Z.of_nat y + 1) (Z.of_nat x) Hs)
    as (p10 & G10 & _ & L10); [lia | lia |].
  destruct (img_get_in_bounds H W 3 pic (Z.of_nat y + 1) (Z.of_nat x + 1) Hs)
    as (p11 & G11 & _ & L11); [lia | lia |].
  rewrite G00, G01, G10, G11. cbn [bind].
  do 4 (destruct p01 as [|? p01]; try discriminate).
  do 4 (destruct p10 as [|? p10]; try discriminate).
  do 4 (destruct p11 as [|? p11]; try discriminate).
  eexists; eexists; eexists. split; [reflexivity|].
  assert (Dx : qx - inject_Z (Z.of_nat x) == 0) by lra.
  assert (Dy : qy - inject_Z (Z.of_nat y) == 0) by lra.
  repeat split; rewrite Dx, Dy; ring.
Qed.

(** What the loop body makes of a zero cell when the image is placed by
    the identity: the pixel under it, weighted. *)
Lemma blend_cell_identity (H W Wc : nat) (pic : list (list (list Q)))
    (y x : nat) (r g bl b : Q) :
  has_shape H W 3 pic -> (y + 1 < H)%nat -> (x + 1 < W)%nat ->
  cell_at pic y x = Some [r; g; bl] -> ~ b == 0 ->
  exists v0 v1 v2 w,
    blend_cell (to_unit_range pic) identity3 b Wc y x [0; 0; 0; 0] =
      Ok [0 + v0 * w; 0 + v1 * w; 0 + v2 * w; 0 + w] /\
    v0 == r / 255 /\ v1 == g / 255 /\ v2 == bl / 255 /\
    blend_weight x Wc b = Ok w.
Proof.
  intros Hs Hy Hx Hcell Hb.
  pose proof (to_unit_range_shape _ _ _ _ Hs) as Hs'.
  pose proof (to_unit_range_cell _ _ _ _ Hcell) as Hcell'. cbn [map] in Hcell'.
  unfold blend_cell. cbn [mat_vec identity3 dot3].
  set (X := inject_Z (Z.of_nat x)). set (Y := inject_Z (Z.of_nat y)).
  assert (HX : 0 <= X)
    by (change 0 with (inject_Z 0); unfold X; rewrite <- Zle_Qle; lia).
  assert (HY : 0 <= Y)
    by (change 0 with (inject_Z 0); unfold Y; rewrite <- Zle_Qle; lia).
  assert (HX1 : X < inject_Z (Z.of_nat W - 1))
    by (unfold X; rewrite <- Zlt_Qlt; lia).
  assert (HY1 : Y < inject_Z (Z.of_nat H - 1))
    by (unfold Y; rewrite <- Zlt_Qlt; lia).
  rewrite !np_div_nonzero by lra.
  set (qx := (1 * X + 0 * Y + 0 * 1) / (0 * X + 0 * Y + 1 * 1)).
  set (qy := (0 * X + 1 * Y + 0 * 1) / (0 * X + 0 * Y + 1 * 1)).
  assert (Eqx : qx == X) by (unfold qx; field; lra).
  assert (Eqy : qy == Y) by (unfold qy; field; lra).
  rewrite (skip_test_inside H W 3) by (done || lia || lra).
  destruct (bilinear_at_lattice H W _ qx qy x y _ _ _ Hs' Eqx Eqy Hx Hy Hcell')
    as (v0 & v1 & v2 & Hbil & E0 & E1 & E2).
  rewrite Hbil. cbn [bind]. rewrite (blend_weight_ok x Wc b Hb). cbn [bind].
  eexists v0, v1, v2, _. split; [reflexivity|]. done.
Qed.

Lemma blend_weight_first_column (Wc : nat) (b w : Q) :
  0 < b -> blend_weight 0 Wc b = Ok w -> w == 0.
Proof.
  intros Hb Hw. rewrite blend_weight_ok in Hw by lra. injection Hw as <-.
  destruct (Qmin3_spec (inject_Z (Z.of_nat 0)) b
              (inject_Z (Z.of_nat Wc - Z.of_nat 0))) as (H0 & _ & _ & Hm).
  assert (H2 : 0 <= inject_Z (Z.of_nat Wc - Z.of_nat 0))
    by (change 0 with (inject_Z 0); rewrite <- Zle_Qle; lia).
  change (inject_Z (Z.of_nat 0)) with 0 in *.
  assert (E : Qmin3 0 b (inject_Z (Z.of_nat Wc - Z.of_nat 0)) == 0)
    by (destruct Hm as [E | [E | E]]; lra).
  rewrite E. field. lra.
Qed.

Lemma blend_weight_inner_column (x Wc : nat) (b w : Q) :
  0 < b -> b <= 100000000 -> (1 <= x)%nat -> (x < Wc)%nat ->
  blend_weight x Wc b = Ok w -> (1 # 100000000) <= w.
Proof.
  intros Hb Hb' Hx Hx' Hw. rewrite blend_weight_ok in Hw by lra.
  injection Hw as <-. apply Qle_shift_div_l; [exact Hb|].
  destruct (Qmin3_spec (inject_Z (Z.of_nat x)) b
              (inject_Z (Z.of_nat Wc - Z.of_nat x))) as (_ & _ & _ & Hm).
  assert (H1 : 1 <= inject_Z (Z.of_nat x))
    by (change 1 with (inject_Z 1); rewrite <- Zle_Qle; lia).
  assert (H2 : 1 <= inject_Z (Z.of_nat Wc - Z.of_nat x))
    by (change 1 with (inject_Z 1); rewrite <- Zle_Qle; lia).
  destruct Hm as [E | [E | E]]; rewrite E; lra.
Qed.

(** Normalising a cell that holds one weighted pixel gives the pixel
    back when the weight is at least 1e-8. *)
Lemma normalize_weighted_pixel (v0 v1 v2 w r g bl : Q) :
  v0 == r / 255 -> v1 == g / 255 -> v2 == bl / 255 ->
  (1 # 100000000) <= w ->
  normalize_pixel [0 + v0 * w; 0 + v1 * w; 0 + v2 * w; 0 + w] =
    Ok [to_uint8 r; to_uint8 g; to_uint8 bl; 255%Z].
Proof.
  intros E0 E1 E2 Hw. rewrite normalize_pixel_4. cbv zeta.
  assert (Em : Qmax (0 + w) (1 # 100000000) == w)
    by (rewrite Q.max_l; lra).
  assert (Hc : forall v c, v == c / 255 ->
            to_uint8 ((0 + v * w) / Qmax (0 + w) (1 # 100000000) * 255)
            = to_uint8 c).
  { intros v c E. unfold to_uint8. f_equal. apply Qtrunc_comp.
    rewrite Em, E. field. lra. }
  now rewrite (Hc _ _ E0), (Hc _ _ E1), (Hc _ _ E2).
Qed.

(** With weight 0 the cell comes out black, whatever the pixel. *)
Lemma normalize_unweighted_pixel (v0 v1 v2 w : Q) :
  w == 0 ->
  normalize_pixel [0 + v0 * w; 0 + v1 * w; 0 + v2 * w; 0 + w] =
    Ok [0; 0; 0; 255]%Z.
Proof.
  intros Hw. rewrite normalize_pixel_4. cbv zeta.
  assert (Hm : ~ Qmax (0 + w) (1 # 100000000) == 0).
  { pose proof (Q.le_max_r (0 + w) (1 # 100000000)). lra. }
  remember (Qmax (0 + w) (1 # 100000000)) as m eqn:Em. clear Em.
  rewrite !to_uint8_zero; [done| | |]; rewrite Hw; field; exact Hm.
Qed.

Lemma to_uint8_byte (n : Z) : (0 <= n < 256)%Z -> to_uint8 (inject_Z n) = n.
Proof. intros Hn. unfold to_uint8. rewrite Qtrunc_Z. now apply Z.mod_small. Qed.

Lemma np_zeros_ok (h w c : nat) :
  np_zeros (Z.of_nat h) (Z.of_nat w) (Z.of_nat c) = Ok (constant_image h w c 0).
Proof.
  unfold np_zeros.
  destruct (Z.ltb_spec (Z.of_nat h) 0); [lia|].
  destruct (Z.ltb_spec (Z.of_nat w) 0); [lia|].
  destruct (Z.ltb_spec (Z.of_nat c) 0); [lia|].
  cbn [orb]. now rewrite !Nat2Z.id.
Qed.

Lemma constant_image_cell (h w c : nat) (v : Q) (y x : nat) (cell : list Q) :
  cell_at (constant_image h w c v) y x = Some cell ->
  cell = replicate c v /\ (y < h)%nat /\ (x < w)%nat.
Proof.
  unfold cell_at, constant_image. intros Hc.
  destruct (replicate h _ !! y) as [row|] eqn:Hy; [|done].
  apply lookup_replicate in Hy as [-> Hy].
  apply lookup_replicate in Hc as [-> Hx]. done.
Qed.

Lemma zero_cell (h w : nat) (y x : nat) :
  (y < h)%nat -> (x < w)%nat ->
  cell_at (constant_image h w 4 0) y x = Some [0; 0; 0; 0].
Proof.
  intros Hy Hx. unfold cell_at, constant_image.
  rewrite lookup_replicate_2 by done. now rewrite lookup_replicate_2.
Qed.

Lemma warp_cell (src : list (list (list Z))) (w h : nat) (y x : nat)
    (p : list Z) :
  (y < h)%nat -> (x < w)%nat -> cell_at src y x = Some p ->
  cell_at (warpPerspective_identity src (Z.of_nat w) (Z.of_nat h)) y x = Some p.
Proof.
  intros Hy Hx Hp. unfold cell_at, warpPerspective_identity, range in *.
  rewrite !Nat2Z.id, list_lookup_fmap, lookup_seq_lt by done. cbn [fmap option_fmap option_map].
  rewrite list_lookup_fmap, lookup_seq_lt by done. cbn [fmap option_fmap option_map]. cbn.
  destruct (src !! y) as [row|]; [|done]. now rewrite Hp.
Qed.

Lemma warp_dims (src : list (list (list Z))) (w h : nat) :
  let out := warpPerspective_identity src (Z.of_nat w) (Z.of_nat h) in
  length out = h /\ forall y row, out !! y = Some row -> length row = w.
Proof.
  unfold warpPerspective_identity, range. rewrite !Nat2Z.id. split.
  - now rewrite length_map, length_seq.
  - intros y row Hy. rewrite list_lookup_fmap in Hy.
    destruct (seq 0 h !! y); [|done]. cbn in Hy. injection Hy as <-.
    now rewrite length_map, length_seq.
Qed.

(** C1, as the specification states it, fails: the mosaic of a white
    2x2 image placed by the identity is a single black pixel. *)
Lemma single_image_mosaic_differs :
  ~ (exists out A,
        blendImages [white_2x2] 20 false None = Ok (out, A) /\
        mosaic_equals_input (img white_2x2) out).
Proof.
  intros (out & A & Hrun & Hlen & _). vm_compute in Hrun.
  injection Hrun as <- _. discriminate.
Qed.

(** In the rational model the colours of the columns x >= 1 come back
    exactly; the float pipeline can lose one unit in the final
    truncation, which is why the theorem below claims less. *)
Lemma single_image_exact (H W : nat) (nm : string)
    (pic : list (list (list Q))) (b : Q) (A_out : option mat3) :
  has_shape H W 3 pic -> (2 <= H)%nat -> (2 <= W)%nat ->
  0 < b -> b <= 100000000 ->
  exists out,
    blendImages [mkImageInfo nm pic identity3] b false A_out =
      Ok (out, match A_out with Some _ => Some identity3 | None => None end) /\
    length out = (H - 1)%nat /\
    (forall y row, out !! y = Some row -> length row = (W - 1)%nat) /\
    (forall y x p,
        (y < H - 1)%nat -> (x < W - 1)%nat -> cell_at pic y x = Some p ->
        cell_at out y x =
          Some (if (x =? 0)%nat then [0; 0; 0; 255]%Z
                else map to_uint8 p ++ [255%Z])).
Proof.
  intros Hs HH HW Hb Hb'.
  set (acc0 := constant_image (H - 1) (W - 1) 4 0).
  pose proof (constant_image_shape (H - 1) (W - 1) 4 0) as Hacc0.
  fold acc0 in Hacc0.
  assert (Hinv : linalg_inv (mat_mul (translate 0 0) identity3) = Ok identity3)
    by reflexivity.
  assert (Hb0 : ~ b == 0) by lra.
  assert (Hpix : forall y x, (y < H - 1)%nat -> (x < W - 1)%nat ->
            exists r g bl v0 v1 v2 w,
              cell_at pic y x = Some [r; g; bl] /\
              blend_cell (to_unit_range pic) identity3 b (W - 1) y x
                [0; 0; 0; 0] =
                Ok [0 + v0 * w; 0 + v1 * w; 0 + v2 * w; 0 + w] /\
              v0 == r / 255 /\ v1 == g / 255 /\ v2 == bl / 255 /\
              blend_weight x (W - 1) b = Ok w).
  { intros y x Hy Hx.
    destruct (has_shape_cell H W 3 pic y x Hs) as (p & Hp & Hlen);
      [lia | lia |].
    do 4 (destruct p as [|? p]; try discriminate).
    destruct (blend_cell_identity H W (W - 1) pic y x q q0 q1 b Hs)
      as (v0 & v1 & v2 & w & Hbc & E0 & E1 & E2 & Hw); [lia | lia | done | done |].
    exists q, q0, q1, v0, v1, v2, w. done. }
  destruct (accumulateBlend_total (H - 1) (W - 1) 4 pic acc0 _ identity3 b
              Hacc0 Hinv) as [acc' Hacc'].
  { intros y x cell Hc. apply constant_image_cell in Hc as (-> & Hy & Hx).
    destruct (Hpix y x Hy Hx) as (r & g & bl & v0 & v1 & v2 & w & _ & Hbc & _).
    cbn [replicate]. eauto. }
  destruct (accumulateBlend_cells _ _ _ _ _ _ _ _ _ Hacc0 Hinv Hacc')
    as (Hlen' & Hrows' & Hcells').
  assert (Hcell : forall y x, (y < H - 1)%nat -> (x < W - 1)%nat ->
            exists r g bl v0 v1 v2 w,
              cell_at pic y x = Some [r; g; bl] /\
              cell_at acc' y x =
                Some [0 + v0 * w; 0 + v1 * w; 0 + v2 * w; 0 + w] /\
              v0 == r / 255 /\ v1 == g / 255 /\ v2 == bl / 255 /\
              blend_weight x (W - 1) b = Ok w).
  { intros y x Hy Hx.
    destruct (Hpix y x Hy Hx)
      as (r & g & bl & v0 & v1 & v2 & w & Hp & Hbc & E).
    destruct (Hcells' y x _ (zero_cell _ _ y x Hy Hx)) as (c' & Hbc' & Hc').
    rewrite Hbc in Hbc'. injection Hbc' as <-.
    exists r, g, bl, v0, v1, v2, w. done. }
  assert (Hnorm : exists comp, normalizeBlend acc' = Ok comp).
  { apply map_result_total, Forall_lookup. intros y row' Hy.
    apply map_result_total, Forall_lookup. intros x cell' Hx.
    pose proof (lookup_lt_Some _ _ _ Hy) as Hylt.
    pose proof (lookup_lt_Some _ _ _ Hx) as Hxlt.
    rewrite (Hrows' _ _ Hy) in Hxlt.
    destruct (Hcell y x) as (r & g & bl & v0 & v1 & v2 & w & _ & Hc & _);
      [lia | lia |].
    unfold cell_at in Hc. rewrite Hy, Hx in Hc. injection Hc as ->.
    eexists. apply normalize_pixel_4. }
  destruct Hnorm as [comp Hcomp].
  exists (warpPerspective_identity comp (Z.of_nat (W - 1)) (Z.of_nat (H - 1))).
  destruct (warp_dims comp (W - 1) (H - 1)) as [Hd1 Hd2].
  split; [|split; [exact Hd1|split; [exact Hd2|]]].
  - unfold blendImages. rewrite (getAccSize_single_identity H W 3) by (done || lia).
    cbn [accWidth accHeight channels width translation].
    unfold pasteImages. change (Z.of_nat 3 + 1)%Z with (Z.of_nat 4).
    replace (Z.of_nat H - 1)%Z with (Z.of_nat (H - 1)) by lia.
    replace (Z.of_nat W - 1)%Z with (Z.of_nat (W - 1)) by lia.
    rewrite np_zeros_ok. cbn [bind for_each img position]. fold acc0.
    rewrite Hacc'. cbn [bind]. rewrite Hcomp. cbn [bind].
    destruct (getDriftParams_nonempty [mkImageInfo nm pic identity3]
                (translate 0 0) (Z.of_nat W)) as [d Hd]; [done|].
    rewrite Hd. cbn [bind]. reflexivity.
  - intros y x p Hy Hx Hp.
    destruct (Hcell y x Hy Hx)
      as (r & g & bl & v0 & v1 & v2 & w & Hp' & Hc & E0 & E1 & E2 & Hw).
    rewrite Hp in Hp'. injection Hp' as ->.
    apply warp_cell; [done | done |].
    destruct (cell_at_lt _ _ _ _ Hc) as (row' & Hy' & Hx' & _).
    destruct (map_result_lookup _ _ _ _ _ Hcomp Hy') as (crow & Hcrow & Hcy).
    destruct (map_result_lookup _ _ _ _ _ Hcrow Hx') as (cp & Hcp & Hcx).
    unfold cell_at. rewrite Hcy, Hcx. f_equal.
    destruct (Nat.eqb_spec x 0) as [->|Hx0].
    + rewrite normalize_unweighted_pixel in Hcp
        by (eapply blend_weight_first_column; eauto).
      now injection Hcp as <-.
    + rewrite (normalize_weighted_pixel _ _ _ _ r g bl) in Hcp;
        [now injection Hcp as <- | done | done | done |].
      eapply (blend_weight_inner_column x (W - 1)); eauto; lia.
Qed.

Lemma img_bytes_cell (pic : list (list (list Q))) (y x : nat) (p : list Q) :
  img_bytes pic -> cell_at pic y x = Some p ->
  forall v, In v p -> is_byteb v = true.
Proof.
  intros Hb Hc v Hv.
  destruct (cell_at_lt _ _ _ _ Hc) as (row & Hy & Hx & _).
  unfold img_bytes in Hb. rewrite forallb_forall in Hb.
  apply list_elem_of_lookup_2, list_elem_of_In in Hy, Hx.
  specialize (Hb row Hy). rewrite forallb_forall in Hb.
  specialize (Hb p Hx). rewrite forallb_forall in Hb. now apply Hb.
Qed.

Lemma byte_rounds_to (v : Q) : is_byteb v = true -> rounds_to v (to_uint8 v).
Proof.
  unfold is_byteb, rounds_to, to_uint8. intros Hv.
  apply andb_true_iff in Hv as [Hv H255]. apply andb_true_iff in Hv as [_ H0].
  apply Z.leb_le in H0, H255. rewrite Z.mod_small by lia. lia.
Qed.

(** C1 (amended): for a one-element image list whose single image, H
    rows by W columns of three 8-bit channels with H, W >= 2, carries
    the identity placement transform, [blendImages] with
    [is360 = False] and 0 < blendWidth <= 1e8 returns a mosaic W - 1
    wide and H - 1 high, of four channels, the last one the opaque alpha
    255.  Column 0, where the hat weight is 0, is black.  In every
    column x >= 1 each colour channel of the mosaic pixel equals the
    channel of the input pixel at the same place up to 8-bit rounding:
    it is the input value or one below. *)
Theorem single_image_mosaic (H W : nat) (nm : string)
    (pic : list (list (list Q))) (b : Q) (A_out : option mat3) :
  has_shape H W 3 pic -> img_bytes pic -> (2 <= H)%nat -> (2 <= W)%nat ->
  0 < b -> b <= 100000000 ->
  exists out,
    blendImages [mkImageInfo nm pic identity3] b false A_out =
      Ok (out, match A_out with Some _ => Some identity3 | None => None end) /\
    length out = (H - 1)%nat /\
    (forall y row, out !! y = Some row -> length row = (W - 1)%nat) /\
    (forall y x p,
        (y < H - 1)%nat -> (x < W - 1)%nat -> cell_at pic y x = Some p ->
        exists q,
          cell_at out y x = Some (q ++ [255%Z]) /\
          if (x =? 0)%nat then q = [0; 0; 0]%Z else Forall2 rounds_to p q).
Proof.
  intros Hs Hbytes HH HW Hb Hb'.
  destruct (single_image_exact H W nm pic b A_out Hs HH HW Hb Hb')
    as (out & Hrun & Hlen & Hrows & Hcells).
  exists out. split; [exact Hrun|]. split; [exact Hlen|].
  split; [exact Hrows|].
  intros y x p Hy Hx Hp. rewrite (Hcells y x p Hy Hx Hp).
  destruct (x =? 0)%nat.
  - exists [0; 0; 0]%Z. done.
  - exists (map to_uint8 p). split; [done|].
    pose proof (img_bytes_cell pic y x p Hbytes Hp) as Hin.
    clear -Hin. induction p as [|v p IH]; [constructor|].
    cbn [map]. constructor.
    + apply byte_rounds_to, Hin. now left.
    + apply IH. intros u Hu. apply Hin. now right.
Qed.

Lemma single_image_mosaic_witness :
  exists out,
    blendImages [mkImageInfo "ramp" ramp_3x4 identity3] 20 false None =
      Ok (out, None) /\
    length out = (3 - 1)%nat /\
    (forall y row, out !! y = Some row -> length row = (4 - 1)%nat) /\
    (forall y x p,
        (y < 3 - 1)%nat -> (x < 4 - 1)%nat -> cell_at ramp_3x4 y x = Some p ->
        exists q,
          cell_at out y x = Some (q ++ [255%Z]) /\
          if (x =? 0)%nat then q = [0; 0; 0]%Z else Forall2 rounds_to p q).
Proof.
  apply (single_image_mosaic 3 4 "ramp" ramp_3x4 20 None).
  - split; [reflexivity|]. repeat constructor.
  - reflexivity.
  - lia.
  - lia.
  - reflexivity.
  - unfold Qle. simpl. lia.
Defined.

(** * Further properties of the module *)

(** ** Bounding boxes (lines 15-41) *)

Lemma Qtrunc_le (p q : Q) : p <= q -> (Qtrunc p <= Qtrunc q)%Z.
Proof.
  intros Hpq. destruct (Qlt_le_dec p 0) as [Hp | Hp];
    destruct (Qlt_le_dec q 0) as [Hq | Hq].
  - rewrite (Qtrunc_nonpos p), (Qtrunc_nonpos q) by lra.
    assert (Qfloor (- q) <= Qfloor (- p))%Z by (apply Qfloor_resp_le; lra).
    lia.
  - rewrite (Qtrunc_nonpos p), (Qtrunc_nonneg q) by lra.
    assert (Qfloor 0 <= Qfloor (- p))%Z by (apply Qfloor_resp_le; lra).
    assert (Qfloor 0 <= Qfloor q)%Z by (apply Qfloor_resp_le; lra).
    change (Qfloor 0) with 0%Z in *. lia.
  - lra.
  - rewrite (Qtrunc_nonneg p), (Qtrunc_nonneg q) by lra.
    now apply Qfloor_resp_le.
Qed.

Lemma fold_Qmin_le (l : list Q) (a : Q) : fold_left Qmin l a <= a.
Proof.
  revert a. induction l as [|b l IH]; intros a; simpl; [apply Qle_refl|].
  eapply Qle_trans; [apply IH | apply Q.le_min_l].
Qed.

Lemma fold_Qmax_ge (l : list Q) (a : Q) : a <= fold_left Qmax l a.
Proof.
  revert a. induction l as [|b l IH]; intros a; simpl; [apply Qle_refl|].
  eapply Qle_trans; [apply Q.le_max_l | apply IH].
Qed.

Lemma np_min_le_np_max (l : list Q) : np_min l <= np_max l.
Proof.
  destruct l as [|a l]; simpl; [apply Qle_refl|].
  eapply Qle_trans; [apply fold_Qmin_le | apply fold_Qmax_ge].
Qed.

(** Whatever the transform, the box [imageBoundingBox] returns is not
    inverted: minX <= maxX and minY <= maxY. *)
Theorem imageBoundingBox_ordered (pic : list (list (list Q))) (M : mat3) :
  let '(minX, minY, maxX, maxY) := imageBoundingBox pic M in
  (minX <= maxX)%Z /\ (minY <= maxY)%Z.
Proof.
  unfold imageBoundingBox.
  split; apply Qtrunc_le, np_min_le_np_max.
Qed.

(** Placed by the identity, an image of H rows and W columns has the box
    of its corner pixels, (0, 0, W - 1, H - 1). *)
Theorem imageBoundingBox_of_identity (H W C : nat)
    (pic : list (list (list Q))) :
  has_shape H W C pic -> (1 <= H)%nat -> (1 <= W)%nat ->
  imageBoundingBox pic identity3 = (0, 0, Z.of_nat W - 1, Z.of_nat H - 1)%Z.
Proof. apply imageBoundingBox_identity. Qed.

Lemma imageBoundingBox_of_identity_witness :
  imageBoundingBox ramp_3x4 identity3 = (0, 0, Z.of_nat 4 - 1, Z.of_nat 3 - 1)%Z.
Proof.
  apply (imageBoundingBox_of_identity 3 4 3).
  - split; [reflexivity|]. repeat constructor.
  - lia.
  - lia.
Defined.

(** ** Canvas geometry (lines 113-164) *)

Lemma fold_Zmin_le_init (l : list Z) (s : Z) : (fold_left Z.min l s <= s)%Z.
Proof.
  revert s. induction l as [|a l IH]; intros s; simpl; [lia|].
  specialize (IH (Z.min s a)). lia.
Qed.

Lemma fold_Zmax_ge_init (l : list Z) (s : Z) : (s <= fold_left Z.max l s)%Z.
Proof.
  revert s. induction l as [|a l IH]; intros s; simpl; [lia|].
  specialize (IH (Z.max s a)). lia.
Qed.

Lemma box_ordered (i : ImageInfo) :
  (box_minX i <= box_maxX i)%Z /\ (box_minY i <= box_maxY i)%Z.
Proof.
  unfold box_minX, box_minY, box_maxX, box_maxY, imageBoundingBox.
  split; apply Qtrunc_le, np_min_le_np_max.
Qed.

Lemma acc_state_channels (rest : list ImageInfo) (st : acc_state) :
  st_channels st <> (-1)%Z ->
  st_channels (fold_left acc_state_step rest st) = st_channels st /\
  st_width (fold_left acc_state_step rest st) = st_width st.
Proof.
  revert st. induction rest as [|i rest IH]; intros st Hc; [done|].
  simpl.
  assert (E : st_channels (acc_state_step st i) = st_channels st /\
              st_width (acc_state_step st i) = st_width st).
  { unfold acc_state_step. destruct (shape (img i)) as [[? w] c].
    destruct (imageBoundingBox _ _) as [[[? ?] ?] ?]. simpl.
    destruct (Z.eqb_spec (st_channels st) (-1)); [done|done]. }
  destruct E as [E1 E2].
  destruct (IH (acc_state_step st i)) as [I1 I2]; [congruence|].
  split; congruence.
Qed.

(** For a non-empty image list the canvas is never of negative size, so
    the buffer allocation of [pasteImages] is accepted. *)
Theorem getAccSize_nonnegative (ipv : list ImageInfo) :
  ipv <> [] ->
  let sz := getAccSize ipv in
  (0 <= accWidth sz)%Z /\ (0 <= accHeight sz)%Z /\ (0 <= channels sz)%Z /\
  np_zeros (accHeight sz) (accWidth sz) (channels sz + 1) =
    Ok (constant_image (Z.to_nat (accHeight sz)) (Z.to_nat (accWidth sz))
          (Z.to_nat (channels sz + 1)) 0).
Proof.
  intros Hne. destruct ipv as [|i rest]; [done|].
  cbv zeta. unfold getAccSize.
  destruct (acc_state_fold (i :: rest) acc_state_init) as (E1 & E2 & E3 & E4).
  cbn [accWidth accHeight channels]. rewrite !Qceiling_Z, !Qfloor_Z.
  rewrite E1, E2, E3, E4. cbn [map fold_left].
  pose proof (fold_Zmin_le_init (map box_minX rest)
                (Z.min (st_minX acc_state_init) (box_minX i))).
  pose proof (fold_Zmin_le_init (map box_minY rest)
                (Z.min (st_minY acc_state_init) (box_minY i))).
  pose proof (fold_Zmax_ge_init (map box_maxX rest)
                (Z.max (st_maxX acc_state_init) (box_maxX i))).
  pose proof (fold_Zmax_ge_init (map box_maxY rest)
                (Z.max (st_maxY acc_state_init) (box_maxY i))).
  destruct (box_ordered i) as [Bx By].
  assert (Hc : (0 <= st_channels (fold_left acc_state_step rest
                                    (acc_state_step acc_state_init i)))%Z).
  { destruct (acc_state_channels rest (acc_state_step acc_state_init i))
      as [-> _].
    - unfold acc_state_step. destruct (shape (img i)) as [[? w] c].
      destruct (imageBoundingBox _ _) as [[[? ?] ?] ?]. simpl. lia.
    - unfold acc_state_step. destruct (shape (img i)) as [[? w] c].
      destruct (imageBoundingBox _ _) as [[[? ?] ?] ?]. simpl. lia. }
  cbn [fold_left] in *.
  repeat split; try lia.
  unfold np_zeros.
  repeat match goal with |- context [(?a <? 0)%Z] =>
    destruct (Z.ltb_spec a 0); [lia|] end.
  reflexivity.
Qed.

Lemma getAccSize_nonnegative_witness :
  let sz := getAccSize [half_pixel_right; white_2x2] in
  (0 <= accWidth sz)%Z /\ (0 <= accHeight sz)%Z /\ (0 <= channels sz)%Z /\
  np_zeros (accHeight sz) (accWidth sz) (channels sz + 1) =
    Ok (constant_image (Z.to_nat (accHeight sz)) (Z.to_nat (accWidth sz))
          (Z.to_nat (channels sz + 1)) 0).
Proof. apply getAccSize_nonnegative. discriminate. Defined.

(** The channel count and the image width [getAccSize] returns are
    those of the first image, whatever the later images are: a mismatch
    in the list goes unnoticed. *)
Theorem getAccSize_reads_first_image (i : ImageInfo)
    (rest : list ImageInfo) :
  let '(_, w, c) := shape (img i) in
  channels (getAccSize (i :: rest)) = Z.of_nat c /\
  width (getAccSize (i :: rest)) = Z.of_nat w.
Proof.
  destruct (shape (img i)) as [[h w] c] eqn:Hs.
  unfold getAccSize. cbn [channels width fold_left].
  destruct (acc_state_channels rest (acc_state_step acc_state_init i))
    as [-> ->].
  - unfold acc_state_step. rewrite Hs.
    destruct (imageBoundingBox _ _) as [[[? ?] ?] ?]. simpl. lia.
  - unfold acc_state_step. rewrite Hs.
    destruct (imageBoundingBox _ _) as [[[? ?] ?] ?]. done.
Qed.

(** ** The hat weight (line 87) *)

(** For a positive [blendWidth] the weight of every column 0 <= x <= W
    lies between 0 and 1. *)
Theorem blend_weight_unit_interval (x W : nat) (b : Q) :
  0 < b -> (x <= W)%nat ->
  exists w, blend_weight x W b = Ok w /\ 0 <= w /\ w <= 1.
Proof.
  intros Hb Hx. exists (Qmin3 (inject_Z (Z.of_nat x)) b
                          (inject_Z (Z.of_nat W - Z.of_nat x)) / b).
  split; [apply blend_weight_ok; lra|]. split.
  - eapply blend_weight_nonneg; [exact Hb | exact Hx |].
    apply blend_weight_ok. lra.
  - apply Qle_shift_div_r; [exact Hb|].
    destruct (Qmin3_spec (inject_Z (Z.of_nat x)) b
                (inject_Z (Z.of_nat W - Z.of_nat x))) as (_ & Hle & _).
    lra.
Qed.

Lemma blend_weight_unit_interval_witness :
  exists w, blend_weight 3 10 5 = Ok w /\ 0 <= w /\ w <= 1.
Proof. apply blend_weight_unit_interval; [reflexivity | lia]. Defined.

(** The weight is a trapezoid over the canvas: it rises as x / b from
    the left edge, is 1 where the column is at least [blendWidth] away
    from both x = 0 and x = W, and falls as (W - x) / b towards the
    right edge. *)
Theorem blend_weight_trapezoid (x W : nat) (b : Q) :
  0 < b -> (x <= W)%nat ->
  exists w,
    blend_weight x W b = Ok w /\
    let X := inject_Z (Z.of_nat x) in
    let R := inject_Z (Z.of_nat W - Z.of_nat x) in
    (X <= b -> X <= R -> w == X / b) /\
    (b <= X -> b <= R -> w == 1) /\
    (R <= b -> R <= X -> w == R / b).
Proof.
  intros Hb Hx.
  eexists. split; [apply blend_weight_ok; lra|]. cbv zeta.
  set (X := inject_Z (Z.of_nat x)).
  set (R := inject_Z (Z.of_nat W - Z.of_nat x)).
  destruct (Qmin3_spec X b R) as (H1 & H2 & H3 & Hm).
  assert (Hdiv : forall m c, m == c -> m / b == c / b)
    by (intros m c ->; reflexivity).
  split; [|split]; intros Ha Hb2.
  - apply Hdiv. destruct Hm as [E | [E | E]]; lra.
  - assert (E : Qmin3 X b R == b) by (destruct Hm as [E | [E | E]]; lra).
    rewrite E. field. lra.
  - apply Hdiv. destruct Hm as [E | [E | E]]; lra.
Qed.

Lemma blend_weight_trapezoid_witness :
  exists w,
    blend_weight 7 20 5 = Ok w /\
    let X := inject_Z (Z.of_nat 7) in
    let R := inject_Z (Z.of_nat 20 - Z.of_nat 7) in
    (X <= 5 -> X <= R -> w == X / 5) /\
    (5 <= X -> 5 <= R -> w == 1) /\
    (R <= 5 -> R <= X -> w == R / 5).
Proof. apply blend_weight_trapezoid; [reflexivity | lia]. Defined.

(** ** The sampler (lines 43-57) *)

Lemma lattice_mix (p00 p01 p10 p11 : list Q) (dx dy : Q) :
  dx == 0 -> dy == 0 ->
  length p01 = length p00 -> length p10 = length p00 ->
  length p11 = length p00 ->
  Forall2 Qeq
    (pix_add
       (pix_add
          (pix_add (pix_scale (pix_scale p00 (1 - dx)) (1 - dy))
             (pix_scale (pix_scale p01 dx) (1 - dy)))
          (pix_scale (pix_scale p10 (1 - dx)) dy))
       (pix_scale (pix_scale p11 dx) dy))
    p00.
Proof.
  intros Hdx Hdy. revert p01 p10 p11.
  induction p00 as [|a p00 IH]; intros p01 p10 p11 L1 L2 L3.
  - destruct p01, p10, p11; try discriminate. constructor.
  - destruct p01 as [|b p01], p10 as [|c p10], p11 as [|d p11];
      try discriminate.
    simpl in L1, L2, L3. cbn. constructor.
    + rewrite Hdx, Hdy. ring.
    + apply IH; lia.
Qed.

(** At a lattice point (x, y) that has a right and a lower neighbour,
    the sampler returns the pixel at (x, y) itself. *)
Theorem bilinear_interpolation_at_pixel (H W C : nat)
    (pic : list (list (list Q))) (x y : nat) (p : list Q) :
  has_shape H W C pic -> (x + 1 < W)%nat -> (y + 1 < H)%nat ->
  cell_at pic y x = Some p ->
  exists v,
    bilinear_interpolation pic (Fin (inject_Z (Z.of_nat x)))
      (Fin (inject_Z (Z.of_nat y))) = Ok v /\
    Forall2 Qeq v p.
Proof.
  intros Hs Hx Hy Hcell.
  unfold bilinear_interpolation. cbn [py_int bind np_val].
  rewrite !Qtrunc_Z.
  destruct (img_get_in_bounds H W C pic (Z.of_nat y) (Z.of_nat x) Hs)
    as (p00 & G00 & C00 & L00); [lia | lia |].
  rewrite !Nat2Z.id, Hcell in C00. injection C00 as <-.
  destruct (img_get_in_bounds H W C pic (Z.of_nat y) (Z.of_nat x + 1) Hs)
    as (p01 & G01 & _ & L01); [lia | lia |].
  destruct (img_get_in_bounds H W C pic (Z.of_nat y + 1) (Z.of_nat x) Hs)
    as (p10 & G10 & _ & L10); [lia | lia |].
  destruct (img_get_in_bounds H W C pic (Z.of_nat y + 1) (Z.of_nat x + 1) Hs)
    as (p11 & G11 & _ & L11); [lia | lia |].
  rewrite G00, G01, G10, G11. cbn [bind].
  eexists. split; [reflexivity|].
  apply lattice_mix; try congruence; ring.
Qed.

Lemma bilinear_interpolation_at_pixel_witness :
  exists v,
    bilinear_interpolation ramp_3x4 (Fin (inject_Z (Z.of_nat 2)))
      (Fin (inject_Z (Z.of_nat 1))) = Ok v /\
    Forall2 Qeq v [27; 28; 29].
Proof.
  apply (bilinear_interpolation_at_pixel 3 4 3); try lia; try reflexivity.
  split; [reflexivity|]. repeat constructor.
Defined.

Lemma img_get_out_of_range (H W C : nat) (pic : list (list (list Q)))
    (y x : Z) :
  has_shape H W C pic -> (0 <= y)%Z -> (0 <= x)%Z ->
  (Z.of_nat H <= y \/ Z.of_nat W <= x)%Z ->
  img_get pic y x = Raise IndexError.
Proof.
  intros Hs Hy Hx Hout. unfold img_get.
  destruct (has_shape_dims _ _ _ _ Hs) as (Hlen & Hhd & _).
  unfold shape. rewrite Hlen. unfold np_index at 1.
  destruct (Z.leb_spec 0 y); [|lia].
  destruct (Z.ltb_spec y (Z.of_nat H)); [|done].
  cbn [bind]. rewrite Hhd by lia. unfold np_index.
  destruct (Z.leb_spec 0 x); [|lia].
  destruct (Z.ltb_spec x (Z.of_nat W)); [lia|done].
Qed.

(** The sampler has no bounds check of its own: at a non-negative point
    in the last column or the last row, or beyond, it raises
    [IndexError].  The margin of the guard of line 82 is exactly what it
    needs. *)
Theorem bilinear_interpolation_on_margin (H W C : nat)
    (pic : list (list (list Q))) (x y : Q) :
  has_shape H W C pic -> 0 <= x -> 0 <= y ->
  inject_Z (Z.of_nat W - 1) <= x \/ inject_Z (Z.of_nat H - 1) <= y ->
  bilinear_interpolation pic (Fin x) (Fin y) = Raise IndexError.
Proof.
  intros Hs Hx Hy Hout.
  unfold bilinear_interpolation. cbn [py_int bind np_val].
  rewrite !Qtrunc_nonneg by assumption.
  assert (Hx0 : (0 <= Qfloor x)%Z)
    by (change 0%Z with (Qfloor 0); now apply Qfloor_resp_le).
  assert (Hy0 : (0 <= Qfloor y)%Z)
    by (change 0%Z with (Qfloor 0); now apply Qfloor_resp_le).
  assert (Hm : (Z.of_nat W <= Qfloor x + 1 \/ Z.of_nat H <= Qfloor y + 1)%Z).
  { destruct Hout as [Ho | Ho]; apply Qfloor_resp_le in Ho;
      rewrite Qfloor_Z in Ho; lia. }
  destruct (Z_lt_le_dec (Qfloor y) (Z.of_nat H)) as [Hyin | Hyout];
    [|rewrite (img_get_out_of_range H W C) by (done || lia); done].
  destruct (Z_lt_le_dec (Qfloor x) (Z.of_nat W)) as [Hxin | Hxout];
    [|rewrite (img_get_out_of_range H W C) by (done || lia); done].
  destruct (img_get_in_bounds H W C pic (Qfloor y) (Qfloor x) Hs)
    as (p00 & -> & _); [lia | lia |]. cbn [bind].
  destruct (Z_lt_le_dec (Qfloor x + 1) (Z.of_nat W)) as [Hx1 | Hx1];
    [|rewrite (img_get_out_of_range H W C) by (done || lia); done].
  destruct (img_get_in_bounds H W C pic (Qfloor y) (Qfloor x + 1) Hs)
    as (p01 & -> & _); [lia | lia |]. cbn [bind].
  rewrite (img_get_out_of_range H W C) by (done || lia). done.
Qed.

Lemma bilinear_interpolation_on_margin_witness :
  bilinear_interpolation ramp_3x4 (Fin (7 # 2)) (Fin (1 # 2)) = Raise IndexError.
Proof.
  apply (bilinear_interpolation_on_margin 3 4 3).
  - split; [reflexivity|]. repeat constructor.
  - unfold Qle. simpl. lia.
  - unfold Qle. simpl. lia.
  - left. unfold Qle. simpl. lia.
Defined.

(** ** The accumulator (lines 59-92) *)

Lemma iadd_slice3_length (cell v cell' : list Q) :
  iadd_slice3 cell v = Ok cell' -> length cell' = length cell.
Proof.
  unfold iadd_slice3. intros Hadd.
  destruct (Nat.eqb_spec (length v) (length (take 3 cell))) as [Hlen|_].
  - injection Hadd as <-. unfold pix_add.
    rewrite length_app, length_zip_with, length_drop.
    rewrite length_take in *. lia.
  - destruct (Nat.eqb_spec (length v) 1) as [_|_]; [|done].
    injection Hadd as <-.
    rewrite length_app, length_map, length_drop, length_take. lia.
Qed.

Lemma iadd_at3_length (cell cell' : list Q) (w : Q) :
  iadd_at3 cell w = Ok cell' -> length cell' = length cell.
Proof.
  unfold iadd_at3. destruct (cell !! 3%nat); [|done].
  intros Hadd. injection Hadd as <-. apply length_insert.
Qed.

Lemma blend_cell_length (pic : list (list (list Q))) (inverse_M : mat3)
    (b : Q) (W y x : nat) (cell cell' : list Q) :
  blend_cell pic inverse_M b W y x cell = Ok cell' ->
  length cell' = length cell.
Proof.
  unfold blend_cell. destruct (mat_vec inverse_M _) as [[ix iy] iz].
  destruct (skip_test _ _ _); [intros E; now injection E as <-|].
  destruct (bilinear_interpolation _ _ _) as [pv|]; [cbn [bind]|done].
  destruct (blend_weight x W b) as [w|]; [cbn [bind]|done].
  destruct (iadd_slice3 cell _) as [cell1|] eqn:H1; [cbn [bind]|done].
  intros H2. apply iadd_at3_length in H2. apply iadd_slice3_length in H1.
  congruence.
Qed.

Lemma accumulateBlend_shape (H W C : nat)
    (pic acc acc' : list (list (list Q))) (M : mat3) (blendWidth : Q) :
  has_shape H W C acc ->
  accumulateBlend pic acc M blendWidth = Ok acc' ->
  has_shape H W C acc'.
Proof.
  intros Hs Hrun. revert Hs. unfold accumulateBlend in Hrun.
  destruct (shape acc) as [[h w] c].
  destruct (linalg_inv M) as [inverse_M|]; [simpl in Hrun|done].
  revert Hrun.
  apply (for_each_rel
           (fun a a' => has_shape H W C a -> has_shape H W C a'));
    [done | auto |].
  intros y a a' _.
  apply (for_each_rel
           (fun a a' => has_shape H W C a -> has_shape H W C a'));
    [done | auto |].
  intros x s s' _ Hat [Hlen Hrows]. unfold blend_at in Hat.
  destruct (s !! y) as [row|] eqn:Hrow; [|done].
  destruct (row !! x) as [cell|] eqn:Hc; [|done].
  destruct (blend_cell _ _ _ _ _ _ _) as [cell'|] eqn:Hcell; [|done].
  injection Hat as <-. apply blend_cell_length in Hcell.
  destruct (proj1 (Forall_lookup _ _) Hrows y row Hrow) as [Hrl Hpix].
  split; [now rewrite length_insert|].
  apply Forall_insert; [done|]. split; [now rewrite length_insert|].
  apply Forall_insert; [done|].
  rewrite Hcell. exact (proj1 (Forall_lookup _ _) Hpix x cell Hc).
Qed.

(** A call of [accumulateBlend] that returns leaves the buffer with the
    shape it had. *)
Theorem accumulateBlend_keeps_shape (H W C : nat)
    (pic acc acc' : list (list (list Q))) (M : mat3) (blendWidth : Q) :
  has_shape H W C acc ->
  accumulateBlend pic acc M blendWidth = Ok acc' ->
  has_shape H W C acc'.
Proof. apply accumulateBlend_shape. Qed.

Lemma accumulateBlend_keeps_shape_witness :
  exists acc',
    accumulateBlend (constant_image 3 3 3 200) (constant_image 2 2 4 0)
      identity3 1 = Ok acc' /\
    has_shape 2 2 4 acc'.
Proof.
  eexists. split; [vm_compute; reflexivity|].
  apply (accumulateBlend_keeps_shape 2 2 4 (constant_image 3 3 3 200)
           (constant_image 2 2 4 0) _ identity3 1).
  - apply constant_image_shape.
  - vm_compute. reflexivity.
Defined.

(** A canvas pixel whose source point fails the test of line 82 is
    skipped: its cell comes out of [accumulateBlend] as it went in. *)
Theorem accumulateBlend_skips_outside (H W C : nat)
    (pic acc acc' : list (list (list Q))) (M inverse_M : mat3)
    (blendWidth : Q) (y x : nat) (cell : list Q) :
  has_shape H W C acc ->
  linalg_inv M = Ok inverse_M ->
  accumulateBlend pic acc M blendWidth = Ok acc' ->
  cell_at acc y x = Some cell ->
  (let '(ix, iy, iz) :=
     mat_vec inverse_M (inject_Z (Z.of_nat x), inject_Z (Z.of_nat y), 1) in
   skip_test (to_unit_range pic) (np_div ix iz) (np_div iy iz) = true) ->
  cell_at acc' y x = Some cell.
Proof.
  intros Hs Hinv Hrun Hcell Hskip.
  destruct (accumulateBlend_cells _ _ _ _ _ _ _ _ _ Hs Hinv Hrun)
    as (_ & _ & Hcells).
  destruct (Hcells y x cell Hcell) as (cell' & Hbc & Hc').
  unfold blend_cell in Hbc.
  destruct (mat_vec inverse_M _) as [[ix iy] iz].
  rewrite Hskip in Hbc. now injection Hbc as <-.
Qed.

Lemma accumulateBlend_skips_outside_witness :
  exists acc',
    accumulateBlend (constant_image 3 3 3 200) (constant_image 2 5 4 0)
      identity3 1 = Ok acc' /\
    cell_at acc' 1 3 = Some [0; 0; 0; 0].
Proof.
  eexists. split; [vm_compute; reflexivity|].
  apply (accumulateBlend_skips_outside 2 5 4 (constant_image 3 3 3 200)
           (constant_image 2 5 4 0) _ identity3 identity3 1 1 3).
  - apply constant_image_shape.
  - reflexivity.
  - vm_compute. reflexivity.
  - reflexivity.
  - reflexivity.
Defined.

(** A canvas pixel that is not skipped has its weight channel raised by
    exactly the hat weight of its column: the channel is written once
    per call. *)
Theorem accumulateBlend_adds_weight (H W C : nat)
    (pic acc acc' : list (list (list Q))) (M inverse_M : mat3)
    (blendWidth : Q) (y x : nat) (cell : list Q) (a : Q) :
  has_shape H W C acc ->
  linalg_inv M = Ok inverse_M ->
  accumulateBlend pic acc M blendWidth = Ok acc' ->
  cell_at acc y x = Some cell -> cell !! 3%nat = Some a ->
  (let '(ix, iy, iz) :=
     mat_vec inverse_M (inject_Z (Z.of_nat x), inject_Z (Z.of_nat y), 1) in
   skip_test (to_unit_range pic) (np_div ix iz) (np_div iy iz) = false) ->
  exists cell' w,
    cell_at acc' y x = Some cell' /\
    blend_weight x W blendWidth = Ok w /\
    cell' !! 3%nat = Some (a + w).
Proof.
  intros Hs Hinv Hrun Hcell Ha Hskip.
  destruct (accumulateBlend_cells _ _ _ _ _ _ _ _ _ Hs Hinv Hrun)
    as (_ & _ & Hcells).
  destruct (Hcells y x cell Hcell) as (cell' & Hbc & Hc').
  unfold blend_cell in Hbc.
  destruct (mat_vec inverse_M _) as [[ix iy] iz].
  rewrite Hskip in Hbc.
  destruct (bilinear_interpolation _ _ _) as [pv|]; [cbn [bind] in Hbc|done].
  destruct (blend_weight x W blendWidth) as [w|]; [cbn [bind] in Hbc|done].
  remember (pix_scale pv w) as v eqn:Ev. clear Ev.
  destruct (iadd_slice3 cell v) as [cell1|] eqn:H1; [cbn [bind] in Hbc|done].
  exists cell', w. split; [done|]. split; [done|].
  assert (Ha1 : cell1 !! 3%nat = Some a).
  { unfold iadd_slice3 in H1.
    assert (L3 : length (take 3 cell) = 3%nat).
    { rewrite length_take. apply lookup_lt_Some in Ha. lia. }
    assert (Hd : drop 3 cell !! 0%nat = Some a)
      by (rewrite lookup_drop; exact Ha).
    destruct (Nat.eqb_spec (length v) (length (take 3 cell))) as [E|_]
      in H1.
    - injection H1 as <-. rewrite lookup_app_r;
        unfold pix_add; rewrite length_zip_with; [|lia].
      now replace (3 - _)%nat with 0%nat by lia.
    - destruct (Nat.eqb_spec (length v) 1) as [_|_] in H1; [|done].
      injection H1 as <-. rewrite lookup_app_r; rewrite length_map; [|lia].
      now replace (3 - _)%nat with 0%nat by lia. }
  unfold iadd_at3 in Hbc. rewrite Ha1 in Hbc. injection Hbc as <-.
  apply list_lookup_insert_eq. now apply lookup_lt_Some in Ha1.
Qed.

Lemma accumulateBlend_adds_weight_witness :
  exists acc' cell' w,
    accumulateBlend (constant_image 3 3 3 200) (constant_image 2 2 4 0)
      identity3 1 = Ok acc' /\
    cell_at acc' 0 1 = Some cell' /\
    blend_weight 1 2 1 = Ok w /\
    cell' !! 3%nat = Some (0 + w).
Proof.
  eexists.
  destruct (accumulateBlend_adds_weight 2 2 4 (constant_image 3 3 3 200)
              (constant_image 2 2 4 0) _ identity3 identity3 1 0 1
              [0; 0; 0; 0] 0 (constant_image_shape 2 2 4 0) eq_refl
              eq_refl eq_refl eq_refl eq_refl) as (cell' & w & H1 & H2 & H3).
  exists cell', w. split; [reflexivity|]. split; [exact H1|].
  split; [exact H2 | exact H3].
Defined.

(** ** Normalisation (lines 95-110) *)

Lemma idiv_slice3_length (p p1 : list Q) :
  idiv_slice3 p = Ok p1 ->
  length p1 = length p /\
  (length p = 0 \/ length p = 4 \/ length p = 6)%nat.
Proof.
  unfold idiv_slice3. rewrite length_map, length_drop, length_take.
  destruct (Nat.eqb_spec (length p - 3) (Nat.min 3 (length p))) as [E|_].
  - intros Hd. injection Hd as <-.
    rewrite length_app, length_zip_with, length_map, length_drop,
      length_take. lia.
  - destruct (Nat.eqb_spec (length p - 3) 1) as [E|_]; [|done].
    intros Hd. injection Hd as <-.
    rewrite length_app, length_map, length_drop, length_take. lia.
Qed.

Lemma normalize_pixel_channels (p : list Q) (q : list Z) :
  normalize_pixel p = Ok q ->
  (length p = 4 \/ length p = 6)%nat /\ length q = length p /\
  q !! 3%nat = Some 255%Z /\ Forall (fun v => 0 <= v < 256)%Z q.
Proof.
  unfold normalize_pixel.
  destruct (idiv_slice3 p) as [p1|] eqn:H1; [cbn [bind]|done].
  destruct (idiv_slice3_length _ _ H1) as [L1 Hn].
  unfold set_at3. destruct (p1 !! 3%nat) as [a|] eqn:H3; [cbn [bind]|done].
  intros Hq. injection Hq as <-.
  pose proof (lookup_lt_Some _ _ _ H3) as Hlt.
  split; [lia|]. split; [now rewrite length_map, length_insert|]. split.
  - rewrite list_lookup_fmap, list_lookup_insert_eq by done. reflexivity.
  - apply Forall_fmap, Forall_true. intros v. unfold compose, to_uint8.
    apply Z.mod_pos_bound. lia.
Qed.

Lemma normalize_pixel_6 (p : list Q) :
  length p = 6%nat -> exists q, normalize_pixel p = Ok q.
Proof.
  intros Hp. do 7 (destruct p as [|? p]; try discriminate).
  eexists. reflexivity.
Qed.

(** [normalizeBlend] hard-codes the slices [:3] and [3:]: on a buffer
    that holds at least one pixel it returns exactly when the buffer has
    four channels (colour plus weight) or six, and raises otherwise. *)
Theorem normalizeBlend_channel_counts (H W C : nat)
    (acc : list (list (list Q))) :
  has_shape H W C acc -> (0 < H)%nat -> (0 < W)%nat ->
  (exists out, normalizeBlend acc = Ok out) <-> (C = 4 \/ C = 6)%nat.
Proof.
  intros Hs HH HW. split.
  - intros [out Hout].
    destruct (has_shape_cell H W C acc 0 0 Hs HH HW) as (p & Hp & Hlen).
    destruct (cell_at_lt _ _ _ _ Hp) as (row & Hy & Hx & _).
    destruct (map_result_lookup _ _ _ _ _ Hout Hy) as (orow & Horow & _).
    destruct (map_result_lookup _ _ _ _ _ Horow Hx) as (q & Hq & _).
    apply normalize_pixel_channels in Hq. lia.
  - intros HC. destruct Hs as [_ Hrows].
    apply map_result_total. eapply Forall_impl; [exact Hrows|].
    intros row [_ Hpix]. apply map_result_total.
    eapply Forall_impl; [exact Hpix|]. intros p Hp.
    destruct HC as [-> | ->].
    + do 5 (destruct p as [|? p]; try discriminate).
      eexists. apply normalize_pixel_4.
    + now apply normalize_pixel_6.
Qed.

Lemma normalizeBlend_channel_counts_witness :
  (exists out, normalizeBlend (constant_image 2 3 2 (1 # 2)) = Ok out)
  <-> (2 = 4 \/ 2 = 6)%nat.
Proof.
  apply (normalizeBlend_channel_counts 2 3 2);
    [apply constant_image_shape | lia | lia].
Defined.

Lemma map_result_lookup_inv {A B} (f : A -> result B) l l' i b :
  map_result f l = Ok l' -> l' !! i = Some b ->
  exists a, l !! i = Some a /\ f a = Ok b.
Proof.
  intros Hm Hb. pose proof (lookup_lt_Some _ _ _ Hb) as Hlt.
  rewrite (map_result_length _ _ _ Hm) in Hlt.
  destruct (lookup_lt_is_Some_2 l i Hlt) as [a Ha].
  destruct (map_result_lookup _ _ _ _ _ Hm Ha) as (b' & Hf & Hb').
  exists a. split; [done|]. congruence.
Qed.

(** What [normalizeBlend] returns has the rows and columns of the
    buffer; every pixel keeps its channel count, holds 8-bit values
    only, and has 255 in channel 3, whatever weight the buffer held. *)
Theorem normalizeBlend_output (acc : list (list (list Q)))
    (out : list (list (list Z))) :
  normalizeBlend acc = Ok out ->
  length out = length acc /\
  forall y orow,
    out !! y = Some orow ->
    exists row,
      acc !! y = Some row /\ length orow = length row /\
      forall x q,
        orow !! x = Some q ->
        exists p,
          row !! x = Some p /\ length q = length p /\
          q !! 3%nat = Some 255%Z /\
          Forall (fun v => 0 <= v < 256)%Z q.
Proof.
  intros Hout. split; [exact (map_result_length _ _ _ Hout)|].
  intros y orow Hy.
  destruct (map_result_lookup_inv _ _ _ _ _ Hout Hy) as (row & Hrow & Horow).
  exists row. split; [done|].
  split; [exact (map_result_length _ _ _ Horow)|].
  intros x q Hq.
  destruct (map_result_lookup_inv _ _ _ _ _ Horow Hq) as (p & Hp & Hn).
  exists p. split; [done|].
  apply normalize_pixel_channels in Hn. tauto.
Qed.

Lemma normalizeBlend_output_witness :
  exists out,
    normalizeBlend [[[1 # 2; 1 # 4; 0; 1 # 2]; [3; 2; 1; 4]]] = Ok out /\
    length out = length [[[1 # 2; 1 # 4; 0; 1 # 2]; [3; 2; 1; 4]]] /\
    forall y orow,
      out !! y = Some orow ->
      exists row,
        [[[1 # 2; 1 # 4; 0; 1 # 2]; [3; 2; 1; 4]]] !! y = Some row /\
        length orow = length row /\
        forall x q,
          orow !! x = Some q ->
          exists p,
            row !! x = Some p /\ length q = length p /\
            q !! 3%nat = Some 255%Z /\
            Forall (fun v => 0 <= v < 256)%Z q.
Proof.
  eexists. split; [vm_compute; reflexivity|].
  apply normalizeBlend_output. vm_compute. reflexivity.
Defined.

(** ** Drift parameters (lines 181-213) *)

(** The images between the first and the last play no part in the drift
    parameters. *)
Theorem getDriftParams_ignores_middle (first final : ImageInfo)
    (mid mid' : list ImageInfo) (translation : mat3) (width : Z) :
  getDriftParams (first :: mid ++ [final]) translation width =
  getDriftParams (first :: mid' ++ [final]) translation width.
Proof.
  rewrite (getDriftParams_first_last _ _ _ first final);
    [|done|now rewrite app_comm_cons, last_snoc].
  rewrite (getDriftParams_first_last _ _ _ first final);
    [done|done|now rewrite app_comm_cons, last_snoc].
Qed.

(** [getDriftParams] returns on every non-empty list; on the empty list
    its four variables are never assigned and the [return] raises
    [UnboundLocalError]. *)
Theorem getDriftParams_defined (ipv : list ImageInfo) (translation : mat3)
    (width : Z) :
  match ipv with
  | [] => getDriftParams ipv translation width = Raise UnboundLocalError
  | _ :: _ => exists d, getDriftParams ipv translation width = Ok d
  end.
Proof.
  destruct ipv as [|i rest]; [reflexivity|].
  now apply getDriftParams_nonempty.
Qed.

(** ** The whole pipeline (lines 167-178 and 215-256) *)

Lemma pasteImages_has_shape (ipv : list ImageInfo) (translation : mat3)
    (b : Q) (w h c : Z) (acc : list (list (list Q))) :
  pasteImages ipv translation b w h c = Ok acc ->
  (0 <= h)%Z /\ (0 <= w)%Z /\
  has_shape (Z.to_nat h) (Z.to_nat w) (Z.to_nat (c + 1)) acc.
Proof.
  unfold pasteImages, np_zeros.
  destruct (Z.ltb_spec h 0); [done|].
  destruct (Z.ltb_spec w 0); [done|].
  destruct (Z.ltb_spec (c + 1) 0); [done|]. cbn [orb bind].
  intros Hrun. split; [lia|]. split; [lia|]. revert Hrun.
  pose proof (constant_image_shape (Z.to_nat h) (Z.to_nat w)
                (Z.to_nat (c + 1)) 0) as Hz.
  unfold constant_image in Hz. revert Hz.
  generalize (replicate (Z.to_nat h)
                (replicate (Z.to_nat w) (replicate (Z.to_nat (c + 1)) 0))).
  intros a Ha Hrun. revert Ha. revert Hrun.
  apply (for_each_rel
           (fun a a' => has_shape (Z.to_nat h) (Z.to_nat w)
                          (Z.to_nat (c + 1)) a ->
                        has_shape (Z.to_nat h) (Z.to_nat w)
                          (Z.to_nat (c + 1)) a'));
    [done | auto |].
  intros i s s' _ Hacc Hs. eapply accumulateBlend_shape; eauto.
Qed.

Lemma warp_identity_whole (h w : nat) (src : list (list (list Z))) :
  length src = h -> (forall y row, src !! y = Some row -> length row = w) ->
  warpPerspective_identity src (Z.of_nat w) (Z.of_nat h) = src.
Proof.
  intros Hlen Hrows.
  destruct (warp_dims src w h) as [Hd1 Hd2].
  apply list_eq_same_length with h; [done | done |].
  intros y r1 r2 Hy H1 H2.
  apply list_eq_same_length with w; [eauto | eauto |].
  intros x q1 q2 Hx Hq1 Hq2.
  assert (Hc : cell_at src y x = Some q2)
    by (unfold cell_at; now rewrite H2).
  apply (warp_cell src w h y x q2 Hy Hx) in Hc.
  unfold cell_at in Hc. rewrite H1 in Hc. congruence.
Qed.

(** Without 360 mode the final warp changes nothing: when [blendImages]
    returns, the mosaic is the normalised pasted buffer itself, it has
    [accHeight] rows of [accWidth] pixels, and a caller's [A_out]
    receives the identity. *)
Theorem blendImages_returns_composite (ipv : list ImageInfo)
    (blendWidth : Q) (A_out A' : option mat3) (out : list (list (list Z))) :
  blendImages ipv blendWidth false A_out = Ok (out, A') ->
  let sz := getAccSize ipv in
  (exists acc,
      pasteImages ipv (translation sz) blendWidth
        (accWidth sz) (accHeight sz) (channels sz) = Ok acc /\
      normalizeBlend acc = Ok out) /\
  Z.of_nat (length out) = accHeight sz /\
  (forall y row, out !! y = Some row -> Z.of_nat (length row) = accWidth sz) /\
  A' = match A_out with Some _ => Some identity3 | None => None end.
Proof.
  intros Hrun sz. unfold blendImages in Hrun. fold sz in Hrun.
  destruct (pasteImages _ _ _ _ _ _) as [acc|] eqn:Hp;
    [cbn [bind] in Hrun|done].
  destruct (normalizeBlend acc) as [comp|] eqn:Hn; [cbn [bind] in Hrun|done].
  destruct (getDriftParams _ _ _) as [d|]; [cbn [bind] in Hrun|done].
  injection Hrun as Hout HA.
  change (warpPerspective_identity comp (accWidth sz) (accHeight sz) = out)
    in Hout.
  destruct (pasteImages_has_shape _ _ _ _ _ _ _ Hp) as (Hh & Hw & Hs).
  destruct (has_shape_dims _ _ _ _ Hs) as (Hlen & _ & Hrows).
  assert (Hclen : length comp = Z.to_nat (accHeight sz))
    by (rewrite (map_result_length _ _ _ Hn); exact Hlen).
  assert (Hcrows : forall y row, comp !! y = Some row ->
                     length row = Z.to_nat (accWidth sz)).
  { intros y row Hy.
    destruct (map_result_lookup_inv _ _ _ _ _ Hn Hy) as (arow & Ha & Hr).
    rewrite (map_result_length _ _ _ Hr). eauto. }
  assert (E : warpPerspective_identity comp (accWidth sz) (accHeight sz)
              = comp).
  { rewrite <- (warp_identity_whole _ _ comp Hclen Hcrows) at 2.
    now rewrite !Z2Nat.id. }
  rewrite E in Hout. subst out.
  split; [eauto|]. split; [lia|]. split; [|done].
  intros y row Hy. rewrite (Hcrows _ _ Hy). lia.
Qed.

Lemma blendImages_returns_composite_witness :
  exists out,
    let sz := getAccSize [mkImageInfo "ramp" ramp_3x4 identity3] in
    (exists acc,
        pasteImages [mkImageInfo "ramp" ramp_3x4 identity3] (translation sz)
          20 (accWidth sz) (accHeight sz) (channels sz) = Ok acc /\
        normalizeBlend acc = Ok out) /\
    Z.of_nat (length out) = accHeight sz /\
    (forall y row, out !! y = Some row ->
                   Z.of_nat (length row) = accWidth sz) /\
    Some identity3 = match Some identity3 with
                     | Some _ => Some identity3
                     | None => None
                     end.
Proof.
  eexists.
  apply (blendImages_returns_composite
           [mkImageInfo "ramp" ramp_3x4 identity3] 20 (Some identity3)).
  vm_compute. reflexivity.
Defined.

Lemma pixel_eq_refl (p : list Q) : Forall2 Qeq p p.
Proof. induction p; constructor; [reflexivity | done]. Qed.

(** ** What one image adds to a four-channel cell *)

(** On the cells of a four-channel buffer one iteration of the loop body
    is one of three things, fixed by the image, the transform and the
    pixel position alone: it leaves the cell, it raises, or it adds the
    sample times the weight to the colours and the weight to channel 3. *)
Lemma blend_cell_4 (pic : list (list (list Q))) (inverse_M : mat3) (b : Q)
    (W y x : nat) :
  (forall cell, blend_cell pic inverse_M b W y x cell = Ok cell) \/
  (exists e, forall c0 c1 c2 a,
      blend_cell pic inverse_M b W y x [c0; c1; c2; a] = Raise e) \/
  (exists ix iy iz pv e0 e1 e2 w,
      mat_vec inverse_M (inject_Z (Z.of_nat x), inject_Z (Z.of_nat y), 1)
        = (ix, iy, iz) /\
      skip_test pic (np_div ix iz) (np_div iy iz) = false /\
      bilinear_interpolation pic (np_div ix iz) (np_div iy iz) = Ok pv /\
      e0 ∈ pv /\ e1 ∈ pv /\ e2 ∈ pv /\
      blend_weight x W b = Ok w /\
      forall c0 c1 c2 a,
        blend_cell pic inverse_M b W y x [c0; c1; c2; a] =
          Ok [c0 + e0 * w; c1 + e1 * w; c2 + e2 * w; a + w]).
Proof.
  unfold blend_cell.
  destruct (mat_vec inverse_M _) as [[ix iy] iz] eqn:Hmv.
  destruct (skip_test pic _ _) eqn:Hskip; [now left|]. right.
  destruct (bilinear_interpolation pic _ _) as [pv|e] eqn:Hbil;
    [|left; exists e; done].
  destruct (blend_weight x W b) as [w|e] eqn:Hw; [|left; exists e; done].
  cbn [bind].
  destruct pv as [|e0 [|e1 [|e2 [|e3 pv]]]].
  - left. exists ValueError. done.
  - right. exists ix, iy, iz, [e0], e0, e0, e0, w.
    repeat split; try done; apply list_elem_of_here.
  - left. exists ValueError. done.
  - right. exists ix, iy, iz, [e0; e1; e2], e0, e1, e2, w.
    repeat split; try done;
      repeat (apply list_elem_of_here || apply list_elem_of_further).
  - left. exists ValueError. done.
Qed.

Lemma accumulateBlend_inv_ok (pic acc acc' : list (list (list Q)))
    (M : mat3) (b : Q) :
  accumulateBlend pic acc M b = Ok acc' ->
  exists inverse_M, linalg_inv M = Ok inverse_M.
Proof.
  unfold accumulateBlend. destruct (shape acc) as [[? ?] ?].
  destruct (linalg_inv M) as [inverse_M|]; [eauto|done].
Qed.

Lemma has_shape_4_cell (H W : nat) (acc : list (list (list Q)))
    (y x : nat) (cell : list Q) :
  has_shape H W 4 acc -> cell_at acc y x = Some cell ->
  (y < H)%nat /\ (x < W)%nat /\ exists c0 c1 c2 a, cell = [c0; c1; c2; a].
Proof.
  intros Hs Hc.
  destruct (cell_at_lt _ _ _ _ Hc) as (row & Hy & Hx & Hyl & Hxl).
  destruct (has_shape_dims _ _ _ _ Hs) as (Hlen & _ & Hrows).
  rewrite (Hrows _ _ Hy) in Hxl. rewrite Hlen in Hyl.
  destruct (has_shape_cell H W 4 acc y x Hs Hyl Hxl) as (p & Hp & Hl).
  rewrite Hc in Hp. injection Hp as <-.
  do 5 (destruct cell as [|? cell]; try discriminate). eauto 10.
Qed.

(** One iteration for image 1 and one for image 2 commute on a
    four-channel cell. *)
Lemma blend_cell_commute (pic1 pic2 : list (list (list Q)))
    (N1 N2 : mat3) (b : Q) (W y x : nat) (c0 c1 c2 a : Q)
    (cell1 cell12 : list Q) :
  blend_cell pic1 N1 b W y x [c0; c1; c2; a] = Ok cell1 ->
  blend_cell pic2 N2 b W y x cell1 = Ok cell12 ->
  exists cell2 cell21,
    blend_cell pic2 N2 b W y x [c0; c1; c2; a] = Ok cell2 /\
    blend_cell pic1 N1 b W y x cell2 = Ok cell21 /\
    Forall2 Qeq cell12 cell21.
Proof.
  intros H1 H2.
  destruct (blend_cell_4 pic1 N1 b W y x)
    as [S1 | [[e E1] | (?&?&?&?& d0 & d1 & d2 & w & _&_&_&_&_&_&_& A1)]];
    destruct (blend_cell_4 pic2 N2 b W y x)
    as [S2 | [[e' E2] | (?&?&?&?& d0' & d1' & d2' & w' & _&_&_&_&_&_&_& A2)]];
    rewrite ?S1, ?E1, ?A1 in H1; try discriminate;
    injection H1 as <-;
    rewrite ?S2, ?E2, ?A2 in H2; try discriminate;
    injection H2 as <-.
  - exists [c0; c1; c2; a], [c0; c1; c2; a].
    rewrite S2, S1. repeat split; apply pixel_eq_refl.
  - eexists; eexists. rewrite A2, S1.
    split; [reflexivity|]. split; [reflexivity|]. apply pixel_eq_refl.
  - eexists; eexists. rewrite S2, A1.
    split; [reflexivity|]. split; [reflexivity|]. apply pixel_eq_refl.
  - eexists; eexists. rewrite A2, A1.
    split; [reflexivity|]. split; [reflexivity|].
    repeat constructor; ring.
Qed.

Lemma buffer_eq_cells (H W C : nat) (a b : list (list (list Q))) :
  has_shape H W C a -> has_shape H W C b ->
  (forall y x p q,
      cell_at a y x = Some p -> cell_at b y x = Some q -> Forall2 Qeq p q) ->
  buffer_eq a b.
Proof.
  intros Ha Hb Hcells.
  destruct (has_shape_dims _ _ _ _ Ha) as (La & _ & Ra).
  destruct (has_shape_dims _ _ _ _ Hb) as (Lb & _ & Rb).
  apply Forall2_same_length_lookup. split; [congruence|].
  intros y ra rb Hra Hrb.
  apply Forall2_same_length_lookup.
  split; [rewrite (Ra _ _ Hra), (Rb _ _ Hrb); done|].
  intros x p q Hp Hq. apply (Hcells y x); unfold cell_at.
  - now rewrite Hra.
  - now rewrite Hrb.
Qed.

(** ** The order of the images *)

(** In the rational model two calls on a four-channel buffer can be
    swapped: if one order returns, so does the other, with equal cells. *)
Lemma accumulateBlend_swap (H W : nat)
    (pic1 pic2 acc a1 a12 : list (list (list Q))) (M1 M2 : mat3)
    (blendWidth : Q) :
  has_shape H W 4 acc ->
  accumulateBlend pic1 acc M1 blendWidth = Ok a1 ->
  accumulateBlend pic2 a1 M2 blendWidth = Ok a12 ->
  exists a2 a21,
    accumulateBlend pic2 acc M2 blendWidth = Ok a2 /\
    accumulateBlend pic1 a2 M1 blendWidth = Ok a21 /\
    buffer_eq a12 a21.
Proof.
  intros Hs R1 R12.
  destruct (accumulateBlend_inv_ok _ _ _ _ _ R1) as [N1 HN1].
  destruct (accumulateBlend_inv_ok _ _ _ _ _ R12) as [N2 HN2].
  pose proof (accumulateBlend_shape _ _ _ _ _ _ _ _ Hs R1) as Hs1.
  pose proof (accumulateBlend_shape _ _ _ _ _ _ _ _ Hs1 R12) as Hs12.
  destruct (accumulateBlend_cells _ _ _ _ _ _ _ _ _ Hs HN1 R1)
    as (_ & _ & K1).
  destruct (accumulateBlend_cells _ _ _ _ _ _ _ _ _ Hs1 HN2 R12)
    as (_ & _ & K12).
  (* every cell of the buffer, followed through the two calls *)
  assert (Hchain : forall y x cell,
            cell_at acc y x = Some cell ->
            exists c12 cell2 cell21,
              cell_at a12 y x = Some c12 /\
              blend_cell (to_unit_range pic2) N2 blendWidth W y x cell
                = Ok cell2 /\
              blend_cell (to_unit_range pic1) N1 blendWidth W y x cell2
                = Ok cell21 /\
              Forall2 Qeq c12 cell21).
  { intros y x cell Hc.
    destruct (has_shape_4_cell _ _ _ _ _ _ Hs Hc)
      as (_ & _ & c0 & c1 & c2 & a & ->).
    destruct (K1 y x _ Hc) as (d1 & B1 & C1).
    destruct (K12 y x _ C1) as (d12 & B12 & C12).
    destruct (blend_cell_commute _ _ _ _ _ _ _ _ _ _ _ _ _ _ B1 B12)
      as (cell2 & cell21 & B2 & B21 & E).
    exists d12, cell2, cell21. done. }
  destruct (accumulateBlend_total H W 4 pic2 acc M2 N2 blendWidth Hs HN2)
    as [a2 R2].
  { intros y x cell Hc.
    destruct (Hchain y x cell Hc) as (_ & cell2 & _ & _ & B2 & _). eauto. }
  pose proof (accumulateBlend_shape _ _ _ _ _ _ _ _ Hs R2) as Hs2.
  destruct (accumulateBlend_cells _ _ _ _ _ _ _ _ _ Hs HN2 R2)
    as (_ & _ & K2).
  assert (Hback : forall y x c2,
            cell_at a2 y x = Some c2 ->
            exists cell c12 cell21,
              cell_at acc y x = Some cell /\
              cell_at a12 y x = Some c12 /\
              blend_cell (to_unit_range pic1) N1 blendWidth W y x c2
                = Ok cell21 /\
              Forall2 Qeq c12 cell21).
  { intros y x c2 Hc2.
    destruct (has_shape_4_cell _ _ _ _ _ _ Hs2 Hc2) as (Hy & Hx & _).
    destruct (has_shape_cell H W 4 acc y x Hs Hy Hx) as (cell & Hc & _).
    destruct (Hchain y x cell Hc) as (c12 & cell2 & cell21 & C12 & B2 & B21 & E).
    destruct (K2 y x cell Hc) as (c2' & B2' & C2').
    assert (c2 = cell2) by congruence. subst cell2.
    exists cell, c12, cell21. done. }
  destruct (accumulateBlend_total H W 4 pic1 a2 M1 N1 blendWidth Hs2 HN1)
    as [a21 R21].
  { intros y x c2 Hc2.
    destruct (Hback y x c2 Hc2) as (_ & _ & cell21 & _ & _ & B21 & _). eauto. }
  pose proof (accumulateBlend_shape _ _ _ _ _ _ _ _ Hs2 R21) as Hs21.
  destruct (accumulateBlend_cells _ _ _ _ _ _ _ _ _ Hs2 HN1 R21)
    as (_ & _ & K21).
  exists a2, a21. split; [done|]. split; [done|].
  apply (buffer_eq_cells H W 4); [done | done |].
  intros y x p q Hp Hq.
  destruct (has_shape_4_cell _ _ _ _ _ _ Hs12 Hp) as (Hy & Hx & _).
  destruct (has_shape_cell H W 4 a2 y x Hs2 Hy Hx) as (c2 & Hc2 & _).
  destruct (Hback y x c2 Hc2) as (cell & c12 & cell21 & _ & C12 & B21 & E).
  destruct (K21 y x c2 Hc2) as (q' & B21' & Cq).
  assert (p = c12) by congruence. assert (q = cell21) by congruence.
  now subst.
Qed.

(** Pasting two images onto the fresh buffer does not depend on their
    order: if [pasteImages] returns for the pair, it returns for the
    swapped pair as well, and the two buffers have equal cells (each
    cell is 0 plus the two contributions, in one order or the other). *)
Theorem pasteImages_pair_commutes (i1 i2 : ImageInfo) (translation : mat3)
    (blendWidth : Q) (accWidth accHeight : Z)
    (a12 : list (list (list Q))) :
  pasteImages [i1; i2] translation blendWidth accWidth accHeight 3
    = Ok a12 ->
  exists a21,
    pasteImages [i2; i1] translation blendWidth accWidth accHeight 3
      = Ok a21 /\
    buffer_eq a12 a21.
Proof.
  unfold pasteImages, np_zeros.
  destruct ((accHeight <? 0)%Z || (accWidth <? 0)%Z || (3 + 1 <? 0)%Z);
    [done|].
  cbn [bind for_each].
  pose proof (constant_image_shape (Z.to_nat accHeight) (Z.to_nat accWidth)
                4 0) as Hs.
  unfold constant_image in Hs.
  change (Z.to_nat (3 + 1)) with 4%nat.
  set (acc0 := replicate (Z.to_nat accHeight)
                 (replicate (Z.to_nat accWidth) (replicate 4 0))) in *.
  destruct (accumulateBlend (img i1) acc0 _ blendWidth) as [a1|] eqn:R1;
    [cbn [bind]|done].
  destruct (accumulateBlend (img i2) a1 _ blendWidth) as [a|] eqn:R12;
    [cbn [bind]|done].
  intros E. injection E as ->.
  destruct (accumulateBlend_swap _ _ _ _ _ _ _ _ _ _ Hs R1 R12)
    as (a2 & a21 & R2 & R21 & Heq).
  exists a21. rewrite R2. cbn [bind]. rewrite R21. done.
Qed.

Lemma pasteImages_pair_commutes_witness :
  exists a12 a21,
    pasteImages [white_2x2; mkImageInfo "ramp" ramp_3x4 (translate 1 0)]
      (translate 0 0) 1 3 2 3 = Ok a12 /\
    pasteImages [mkImageInfo "ramp" ramp_3x4 (translate 1 0); white_2x2]
      (translate 0 0) 1 3 2 3 = Ok a21 /\
    buffer_eq a12 a21.
Proof.
  let v := eval vm_compute in
        (match pasteImages
                 [white_2x2; mkImageInfo "ramp" ramp_3x4 (translate 1 0)]
                 (translate 0 0) 1 3 2 3 with
         | Ok a => a
         | Raise _ => []
         end) in pose (a12 := v).
  assert (R : pasteImages
                [white_2x2; mkImageInfo "ramp" ramp_3x4 (translate 1 0)]
                (translate 0 0) 1 3 2 3 = Ok a12)
    by (vm_compute; reflexivity).
  destruct (pasteImages_pair_commutes white_2x2
              (mkImageInfo "ramp" ramp_3x4 (translate 1 0)) (translate 0 0)
              1 3 2 a12 R) as (a21 & R' & E).
  exists a12, a21. split; [exact R|]. split; [exact R' | exact E].
Defined.

(** ** Pixels without weight *)

Lemma blend_cell_sound (pic : list (list (list Q))) (inverse_M : mat3)
    (b : Q) (W y x : nat) (cell cell' : list Q) :
  img_nonneg pic -> 0 < b -> (x <= W)%nat ->
  cell_sound cell ->
  blend_cell pic inverse_M b W y x cell = Ok cell' ->
  cell_sound cell'.
Proof.
  intros Hnn Hb Hx (c0 & c1 & c2 & a & -> & H0 & H1 & H2 & Ha & Hz) Hcell.
  destruct (blend_cell_4 pic inverse_M b W y x)
    as [S | [[e E] | (ix & iy & iz & pv & e0 & e1 & e2 & w
                       & _ & Hskip & Hbil & I0 & I1 & I2 & Hw & A)]].
  - rewrite S in Hcell. injection Hcell as <-. exists c0, c1, c2, a. done.
  - rewrite E in Hcell. discriminate.
  - rewrite A in Hcell. injection Hcell as <-.
    pose proof (blend_weight_nonneg _ _ _ _ Hb Hx Hw) as Hw0.
    pose proof (bilinear_interpolation_nonneg _ _ _ _ Hnn Hskip Hbil) as Hpv.
    rewrite Forall_forall in Hpv.
    pose proof (Hpv _ I0) as P0. pose proof (Hpv _ I1) as P1.
    pose proof (Hpv _ I2) as P2. cbv beta in P0, P1, P2.
    pose proof (Qmult_le_0_compat _ _ P0 Hw0).
    pose proof (Qmult_le_0_compat _ _ P1 Hw0).
    pose proof (Qmult_le_0_compat _ _ P2 Hw0).
    exists (c0 + e0 * w), (c1 + e1 * w), (c2 + e2 * w), (a + w).
    split; [done|]. repeat split; try lra.
    all: assert (Ea : a == 0) by lra;
      assert (Ew : w == 0) by lra; destruct (Hz Ea) as (Z0 & Z1 & Z2);
      rewrite Ew; lra.
Qed.

Lemma accumulateBlend_sound (pic acc acc' : list (list (list Q)))
    (M : mat3) (b : Q) :
  img_nonneg pic -> 0 < b ->
  accumulateBlend pic acc M b = Ok acc' ->
  buffer_sound acc -> buffer_sound acc'.
Proof.
  intros Hnn Hb Hrun. unfold accumulateBlend in Hrun.
  destruct (shape acc) as [[H W] C].
  destruct (linalg_inv M) as [inverse_M|]; [simpl in Hrun|done].
  revert Hrun.
  apply (for_each_rel (fun a a' => buffer_sound a -> buffer_sound a'));
    [done | auto |].
  intros y a a' _.
  apply (for_each_rel (fun a a' => buffer_sound a -> buffer_sound a'));
    [done | auto |].
  intros x s s' Hx Hat Hs. apply elem_of_seq in Hx.
  unfold blend_at in Hat.
  destruct (s !! y) as [row|] eqn:Hrow; [|done].
  destruct (row !! x) as [cell|] eqn:Hc; [|done].
  destruct (blend_cell _ _ _ _ _ _ _) as [cell'|] eqn:Hcell; [|done].
  injection Hat as <-.
  pose proof (proj1 (Forall_lookup _ _) Hs y row Hrow) as Hr.
  apply Forall_insert; [done|]. apply Forall_insert; [done|].
  eapply blend_cell_sound; [| | | |exact Hcell];
    [now apply to_unit_range_nonneg | done | lia |].
  exact (proj1 (Forall_lookup _ _) Hr x cell Hc).
Qed.

Lemma pasteImages_sound_buffer (ipv : list ImageInfo) (translation : mat3)
    (blendWidth : Q) (accWidth accHeight : Z)
    (acc : list (list (list Q))) :
  Forall (fun i => img_nonneg (img i)) ipv -> 0 < blendWidth ->
  pasteImages ipv translation blendWidth accWidth accHeight 3 = Ok acc ->
  buffer_sound acc.
Proof.
  intros Hnn Hb. unfold pasteImages.
  destruct (np_zeros accHeight accWidth (3 + 1)) as [acc0|] eqn:Hz;
    [cbn [bind]|done].
  intros Hrun.
  assert (H0 : buffer_sound acc0).
  { unfold np_zeros in Hz.
    destruct ((accHeight <? 0)%Z || (accWidth <? 0)%Z || (3 + 1 <? 0)%Z);
      [done|].
    injection Hz as <-. apply Forall_replicate, Forall_replicate.
    exists 0, 0, 0, 0. split; [reflexivity|]. repeat split; lra. }
  revert H0. revert Hrun.
  apply (for_each_rel (fun a a' => buffer_sound a -> buffer_sound a'));
    [done | auto |].
  intros i s s' Hi Hacc. eapply accumulateBlend_sound; [| exact Hb | exact Hacc].
  rewrite Forall_forall in Hnn. exact (Hnn i Hi).
Qed.

(** In the buffer [pasteImages] builds from three-channel images with
    non-negative values and a positive [blendWidth], no channel of any
    cell is negative, and a cell whose weight is 0 has colour sums 0. *)
Theorem pasteImages_buffer_sound (ipv : list ImageInfo) (translation : mat3)
    (blendWidth : Q) (accWidth accHeight : Z)
    (acc : list (list (list Q))) :
  Forall (fun i => img_nonneg (img i)) ipv -> 0 < blendWidth ->
  pasteImages ipv translation blendWidth accWidth accHeight 3 = Ok acc ->
  buffer_sound acc.
Proof. apply pasteImages_sound_buffer. Qed.

Lemma pasteImages_buffer_sound_witness :
  exists acc,
    pasteImages [mkImageInfo "ramp" ramp_3x4 identity3] (translate 0 0) 2
      3 2 3 = Ok acc /\
    buffer_sound acc.
Proof.
  eexists. split; [vm_compute; reflexivity|].
  apply (pasteImages_buffer_sound [mkImageInfo "ramp" ramp_3x4 identity3]
           (translate 0 0) 2 3 2).
  - repeat constructor; unfold Qle; simpl; lia.
  - reflexivity.
  - vm_compute. reflexivity.
Defined.

(** Where the pasted buffer has weight 0 the normalised image is black
    and opaque: such a pixel was reached by no image, or only in columns
    where the hat weight is 0. *)
Theorem weightless_pixels_are_black (ipv : list ImageInfo)
    (translation : mat3) (blendWidth : Q) (accWidth accHeight : Z)
    (acc : list (list (list Q))) (out : list (list (list Z)))
    (y x : nat) (cell : list Q) :
  Forall (fun i => img_nonneg (img i)) ipv -> 0 < blendWidth ->
  pasteImages ipv translation blendWidth accWidth accHeight 3 = Ok acc ->
  normalizeBlend acc = Ok out ->
  cell_at acc y x = Some cell ->
  (forall a, cell !! 3%nat = Some a -> a == 0) ->
  cell_at out y x = Some [0; 0; 0; 255]%Z.
Proof.
  intros Hnn Hb Hp Hn Hc Hw.
  pose proof (pasteImages_sound_buffer ipv translation blendWidth
                accWidth accHeight acc Hnn Hb Hp) as Hs.
  destruct (cell_at_lt _ _ _ _ Hc) as (row & Hy & Hx & _).
  pose proof (proj1 (Forall_lookup _ _) Hs y row Hy) as Hr.
  destruct (proj1 (Forall_lookup _ _) Hr x cell Hx)
    as (c0 & c1 & c2 & a & -> & _ & _ & _ & _ & Hz).
  assert (Ea : a == 0) by (apply Hw; reflexivity).
  destruct (Hz Ea) as (Z0 & Z1 & Z2).
  destruct (map_result_lookup _ _ _ _ _ Hn Hy) as (orow & Horow & Hoy).
  destruct (map_result_lookup _ _ _ _ _ Horow Hx) as (q & Hq & Hox).
  unfold cell_at. rewrite Hoy, Hox. f_equal.
  rewrite normalize_pixel_4 in Hq. injection Hq as <-.
  assert (Hm : ~ Qmax a (1 # 100000000) == 0).
  { pose proof (Q.le_max_r a (1 # 100000000)). lra. }
  remember (Qmax a (1 # 100000000)) as m eqn:Em. clear Em.
  rewrite !to_uint8_zero; [done| | |].
  - rewrite Z2. field. exact Hm.
  - rewrite Z1. field. exact Hm.
  - rewrite Z0. field. exact Hm.
Qed.

Lemma weightless_pixels_are_black_witness :
  exists acc out,
    pasteImages [mkImageInfo "ramp" ramp_3x4 identity3] (translate 0 0) 2
      3 2 3 = Ok acc /\
    normalizeBlend acc = Ok out /\
    cell_at out 1 0 = Some [0; 0; 0; 255]%Z.
Proof.
  let v := eval vm_compute in
        (match pasteImages [mkImageInfo "ramp" ramp_3x4 identity3]
                 (translate 0 0) 2 3 2 3 with
         | Ok a => a
         | Raise _ => []
         end) in pose (acc := v).
  let v := eval vm_compute in
        (match normalizeBlend acc with
         | Ok a => a
         | Raise _ => []
         end) in pose (out := v).
  let v := eval vm_compute in
        (match cell_at acc 1 0 with
         | Some c => c
         | None => []
         end) in pose (cell := v).
  exists acc, out.
  assert (Hp : pasteImages [mkImageInfo "ramp" ramp_3x4 identity3]
                 (translate 0 0) 2 3 2 3 = Ok acc)
    by (vm_compute; reflexivity).
  assert (Hn : normalizeBlend acc = Ok out) by (vm_compute; reflexivity).
  split; [exact Hp|]. split; [exact Hn|].
  apply (weightless_pixels_are_black
           [mkImageInfo "ramp" ramp_3x4 identity3] (translate 0 0) 2 3 2
           acc out 1 0 cell).
  - repeat constructor; unfold Qle; simpl; lia.
  - reflexivity.
  - exact Hp.
  - exact Hn.
  - reflexivity.
  - intros a Ha. vm_compute in Ha. injection Ha as <-. reflexivity.
Defined.

(** ** Buffers without a weight channel *)

Lemma blend_cell_short (pic : list (list (list Q))) (inverse_M : mat3)
    (b : Q) (W y x : nat) (cell cell' : list Q) :
  (length cell < 4)%nat ->
  blend_cell pic inverse_M b W y x cell = Ok cell' -> cell' = cell.
Proof.
  intros Hlen. unfold blend_cell.
  destruct (mat_vec inverse_M _) as [[ix iy] iz].
  destruct (skip_test _ _ _); [intros E; now injection E as <-|].
  destruct (bilinear_interpolation _ _ _) as [pv|]; [cbn [bind]|done].
  destruct (blend_weight x W b) as [w|]; [cbn [bind]|done].
  destruct (iadd_slice3 cell _) as [cell1|] eqn:H1; [cbn [bind]|done].
  apply iadd_slice3_length in H1. unfold iadd_at3.
  rewrite (lookup_ge_None_2 cell1 3) by lia. done.
Qed.

(** On a buffer with fewer than four channels a call of
    [accumulateBlend] returns only if every pixel was skipped, and the
    buffer it returns is the one it was given.  (A pixel that is not
    skipped makes the call raise, on [acc[y, x, 3]] at the latest.) *)
Theorem accumulateBlend_needs_weight_channel (H W C : nat)
    (pic acc acc' : list (list (list Q))) (M : mat3) (blendWidth : Q) :
  has_shape H W C acc -> (C < 4)%nat ->
  accumulateBlend pic acc M blendWidth = Ok acc' ->
  acc' = acc.
Proof.
  intros Hs HC Hrun.
  destruct (accumulateBlend_inv_ok _ _ _ _ _ Hrun) as [N HN].
  pose proof (accumulateBlend_shape _ _ _ _ _ _ _ _ Hs Hrun) as Hs'.
  destruct (accumulateBlend_cells _ _ _ _ _ _ _ _ _ Hs HN Hrun)
    as (_ & _ & K).
  destruct (has_shape_dims _ _ _ _ Hs) as (L & _ & R).
  destruct (has_shape_dims _ _ _ _ Hs') as (L' & _ & R').
  apply list_eq_same_length with H; [done | done |].
  intros y r' r Hy Hr' Hr.
  apply list_eq_same_length with W; [eauto | eauto |].
  intros x p' p Hx Hp' Hp.
  assert (Hc : cell_at acc y x = Some p) by (unfold cell_at; now rewrite Hr).
  destruct (K y x p Hc) as (q & Hq & Hcq).
  destruct (has_shape_cell H W C acc y x Hs Hy Hx) as (p0 & Hp0 & Hl).
  assert (p0 = p) by congruence. subst p0.
  apply blend_cell_short in Hq; [|lia]. subst q.
  unfold cell_at in Hcq. rewrite Hr' in Hcq. congruence.
Qed.

Lemma accumulateBlend_needs_weight_channel_witness :
  exists acc',
    accumulateBlend (constant_image 3 3 1 200) (constant_image 2 2 2 0)
      (translate 9 9) 1 = Ok acc' /\
    acc' = constant_image 2 2 2 0.
Proof.
  eexists. split; [vm_compute; reflexivity|].
  apply (accumulateBlend_needs_weight_channel 2 2 2
           (constant_image 3 3 1 200) (constant_image 2 2 2 0) _
           (translate 9 9) 1).
  - apply constant_image_shape.
  - lia.
  - vm_compute. reflexivity.
Defined.

(** ** Blending an image with itself *)

Lemma blend_weight_zero_or_large (x W : nat) (b w : Q) :
  0 < b -> b <= 100000000 -> (x < W)%nat ->
  blend_weight x W b = Ok w -> w == 0 \/ (1 # 100000000) <= w.
Proof.
  intros Hb Hb' Hx Hw. destruct x as [|x].
  - left. eapply blend_weight_first_column; eauto.
  - right. eapply (blend_weight_inner_column (S x) W); eauto; lia.
Qed.

Lemma normalize_pixel_black (r g bl a : Q) :
  r == 0 -> g == 0 -> bl == 0 ->
  normalize_pixel [r; g; bl; a] = Ok [0; 0; 0; 255]%Z.
Proof.
  intros Hr Hg Hb. rewrite normalize_pixel_4. cbv zeta.
  assert (Hm : ~ Qmax a (1 # 100000000) == 0).
  { pose proof (Q.le_max_r a (1 # 100000000)). lra. }
  remember (Qmax a (1 # 100000000)) as m eqn:Em. clear Em.
  rewrite !to_uint8_zero; [done| | |].
  - rewrite Hb. field. exact Hm.
  - rewrite Hg. field. exact Hm.
  - rewrite Hr. field. exact Hm.
Qed.

Lemma normalize_pixel_ratio (r g bl a r' g' bl' a' : Q) :
  (1 # 100000000) <= a -> (1 # 100000000) <= a' ->
  r * a' == r' * a -> g * a' == g' * a -> bl * a' == bl' * a ->
  normalize_pixel [r; g; bl; a] = normalize_pixel [r'; g'; bl'; a'].
Proof.
  intros Ha Ha' Er Eg Eb. rewrite !normalize_pixel_4. cbv zeta.
  assert (Em : Qmax a (1 # 100000000) == a) by (rewrite Q.max_l; lra).
  assert (Em' : Qmax a' (1 # 100000000) == a') by (rewrite Q.max_l; lra).
  assert (Hc : forall c c', c * a' == c' * a ->
            to_uint8 (c / Qmax a (1 # 100000000) * 255)
            = to_uint8 (c' / Qmax a' (1 # 100000000) * 255)).
  { intros c c' E. unfold to_uint8. f_equal. apply Qtrunc_comp.
    rewrite Em, Em'.
    assert (E2 : c / a == c' / a').
    { apply (Qmult_inj_r _ _ (a * a')); [nra|].
      transitivity (c * a'); [field; lra|].
      rewrite E. field. lra. }
    now rewrite E2. }
  now rewrite (Hc _ _ Er), (Hc _ _ Eg), (Hc _ _ Eb).
Qed.

(** Pasting the same image twice at the same place changes nothing in
    the normalised result: where the first copy left weight, the second
    doubles colour sums and weight alike, for 0 < blendWidth <= 1e8. *)
Theorem self_blend_is_idempotent (H W : nat)
    (pic a1 : list (list (list Q))) (M : mat3) (blendWidth : Q)
    (out : list (list (list Z))) :
  0 < blendWidth -> blendWidth <= 100000000 ->
  accumulateBlend pic (constant_image H W 4 0) M blendWidth = Ok a1 ->
  normalizeBlend a1 = Ok out ->
  exists a2,
    accumulateBlend pic a1 M blendWidth = Ok a2 /\
    normalizeBlend a2 = Ok out.
Proof.
  intros Hb Hb' R1 Hn1.
  pose proof (constant_image_shape H W 4 0) as Hs0.
  destruct (accumulateBlend_inv_ok _ _ _ _ _ R1) as [N HN].
  pose proof (accumulateBlend_shape _ _ _ _ _ _ _ _ Hs0 R1) as Hs1.
  destruct (accumulateBlend_cells _ _ _ _ _ _ _ _ _ Hs0 HN R1)
    as (_ & _ & K1).
  (* each cell after one and after two copies *)
  assert (Hchain : forall y x c1,
            cell_at a1 y x = Some c1 ->
            exists c2,
              blend_cell (to_unit_range pic) N blendWidth W y x c1 = Ok c2 /\
              forall q, normalize_pixel c1 = Ok q -> normalize_pixel c2 = Ok q).
  { intros y x c1 Hc1.
    destruct (has_shape_4_cell _ _ _ _ _ _ Hs1 Hc1) as (Hy & Hx & _).
    destruct (K1 y x [0; 0; 0; 0] (zero_cell H W y x Hy Hx))
      as (c1' & B1 & C1).
    assert (c1' = c1) by congruence. subst c1'.
    destruct (blend_cell_4 (to_unit_range pic) N blendWidth W y x)
      as [S | [[e E] | (ix & iy & iz & pv & e0 & e1 & e2 & w
                         & _ & _ & _ & _ & _ & _ & Hw & A)]].
    - exists c1. split; [apply S | done].
    - rewrite E in B1. discriminate.
    - rewrite A in B1. injection B1 as <-. eexists. split; [apply A|].
      intros q Hq.
      destruct (blend_weight_zero_or_large _ _ _ _ Hb Hb' Hx Hw) as [Ew | Ew].
      + rewrite normalize_pixel_black in Hq by (rewrite Ew; ring).
        rewrite normalize_pixel_black by (rewrite Ew; ring). exact Hq.
      + rewrite <- Hq. apply normalize_pixel_ratio; try lra; ring. }
  destruct (accumulateBlend_total H W 4 pic a1 M N blendWidth Hs1 HN)
    as [a2 R2].
  { intros y x c1 Hc1. destruct (Hchain y x c1 Hc1) as (c2 & B2 & _). eauto. }
  exists a2. split; [exact R2|].
  pose proof (accumulateBlend_shape _ _ _ _ _ _ _ _ Hs1 R2) as Hs2.
  destruct (accumulateBlend_cells _ _ _ _ _ _ _ _ _ Hs1 HN R2)
    as (_ & _ & K2).
  destruct (has_shape_dims _ _ _ _ Hs1) as (L1 & _ & Rw1).
  destruct (has_shape_dims _ _ _ _ Hs2) as (L2 & _ & Rw2).
  assert (Hn2 : exists out2, normalizeBlend a2 = Ok out2).
  { destruct Hs2 as [_ Hrows]. apply map_result_total.
    eapply Forall_impl; [exact Hrows|]. intros row [_ Hpix].
    apply map_result_total. eapply Forall_impl; [exact Hpix|].
    intros p Hp. do 5 (destruct p as [|? p]; try discriminate).
    eexists. apply normalize_pixel_4. }
  destruct Hn2 as [out2 Hn2]. rewrite Hn2. f_equal.
  apply list_eq_same_length with H;
    [rewrite (map_result_length _ _ _ Hn1); done
    |rewrite (map_result_length _ _ _ Hn2); done|].
  intros y r2 r1 Hy Hr2 Hr1.
  destruct (map_result_lookup_inv _ _ _ _ _ Hn2 Hr2) as (row2 & Hrow2 & Hm2).
  destruct (map_result_lookup_inv _ _ _ _ _ Hn1 Hr1) as (row1 & Hrow1 & Hm1).
  apply list_eq_same_length with W;
    [rewrite (map_result_length _ _ _ Hm1); eauto
    |rewrite (map_result_length _ _ _ Hm2); eauto|].
  intros x q2 q1 Hx Hq2 Hq1.
  destruct (map_result_lookup_inv _ _ _ _ _ Hm2 Hq2) as (c2 & Hc2 & Hnc2).
  destruct (map_result_lookup_inv _ _ _ _ _ Hm1 Hq1) as (c1 & Hc1 & Hnc1).
  assert (Hcell1 : cell_at a1 y x = Some c1)
    by (unfold cell_at; now rewrite Hrow1).
  destruct (Hchain y x c1 Hcell1) as (c2' & B2 & Hsame).
  destruct (K2 y x c1 Hcell1) as (c2'' & B2' & Hcell2).
  unfold cell_at in Hcell2. rewrite Hrow2, Hc2 in Hcell2.
  assert (c2' = c2) by congruence. subst c2'.
  specialize (Hsame q1 Hnc1). congruence.
Qed.

Lemma self_blend_is_idempotent_witness :
  exists a1 out a2,
    accumulateBlend ramp_3x4 (constant_image 2 3 4 0) identity3 2 = Ok a1 /\
    normalizeBlend a1 = Ok out /\
    accumulateBlend ramp_3x4 a1 identity3 2 = Ok a2 /\
    normalizeBlend a2 = Ok out.
Proof.
  let v := eval vm_compute in
        (match accumulateBlend ramp_3x4 (constant_image 2 3 4 0)
                 identity3 2 with
         | Ok a => a
         | Raise _ => []
         end) in pose (a1 := v).
  let v := eval vm_compute in
        (match normalizeBlend a1 with
         | Ok a => a
         | Raise _ => []
         end) in pose (out := v).
  assert (R1 : accumulateBlend ramp_3x4 (constant_image 2 3 4 0)
                 identity3 2 = Ok a1) by (vm_compute; reflexivity).
  assert (Hn : normalizeBlend a1 = Ok out) by (vm_compute; reflexivity).
  destruct (self_blend_is_idempotent 2 3 ramp_3x4 a1 identity3 2 out)
    as (a2 & R2 & Hn2).
  - reflexivity.
  - unfold Qle. simpl. lia.
  - exact R1.
  - exact Hn.
  - exists a1, out, a2. split; [exact R1|]. split; [exact Hn|].
    split; [exact R2 | exact Hn2].
Defined.
